(** * Replicache transactions (src/transactions.ts): a shallow embedding

    The file has three parts.

    - [Transactions]: the classes [ReadTransactionImpl],
      [WriteTransactionImpl] and [IndexTransactionImpl].  An [async] method
      is a resumption: it runs until it returns, throws, or awaits the
      invocation channel, and is resumed with the answer of the channel.
      The value encoding of [put] and [get], that is the functions
      [JSON.stringify] and [JSON.parse] of the language, is a parameter of
      the embedding: what is proved of the transactions holds for every
      encoding, and a value is representable when the encoding gives it
      back ([round_trips]).
    - [JSON]: one encoding, [JSON.stringify] and [JSON.parse] of ECMAScript
      on the values whose numbers are safe integers and whose strings have
      code units below 256.  It comes first in the file; it is the encoding
      of the concrete transactions, and its round trip is
      [JSON_parse_stringify].
    - The concrete transactions, on an engine in memory. *)

From Stdlib Require Import Decimal DecimalString DecimalN DecimalFacts.
From Stdlib Require Import ZArith NArith List String Ascii Bool Lia.
Import ListNotations.

Local Open Scope string_scope.
Local Open Scope list_scope.

(* ================================================================== *)
(** * JSON values, [JSON.stringify] and [JSON.parse] *)
(* ================================================================== *)

Module JSON.

(** The type [JSONValue] of json.ts: null, booleans, numbers, strings,
    arrays and objects.

    Two restrictions of the embedding, both visible in the types:
    - a number is an integer ([Z]); the doubles that are not integers are
      not values of the model;
    - a string is a sequence of code units below 256 ([ascii]).

    An object is the list of its own properties in enumeration order. *)
Unset Elimination Schemes.
Inductive JSONValue : Type :=
| JNull
| JBoolean (b : bool)
| JNumber (n : Z)
| JString (s : string)
| JArray (elements : list JSONValue)
| JObject (members : list (string * JSONValue)).
Set Elimination Schemes.

Section JSONValue_induction.
Variable P : JSONValue -> Prop.
Hypothesis Hnull : P JNull.
Hypothesis Hbool : forall b, P (JBoolean b).
Hypothesis Hnum : forall n, P (JNumber n).
Hypothesis Hstr : forall s, P (JString s).
Hypothesis Harr : forall l, Forall P l -> P (JArray l).
Hypothesis Hobj : forall m, Forall (fun kv => P (snd kv)) m -> P (JObject m).

Fixpoint JSONValue_ind (v : JSONValue) : P v :=
  match v with
  | JNull => Hnull
  | JBoolean b => Hbool b
  | JNumber n => Hnum n
  | JString s => Hstr s
  | JArray l =>
      Harr l ((fix all (l : list JSONValue) : Forall P l :=
                 match l with
                 | [] => Forall_nil _
                 | x :: l' => Forall_cons x (JSONValue_ind x) (all l')
                 end) l)
  | JObject m =>
      Hobj m ((fix all (m : list (string * JSONValue))
                 : Forall (fun kv => P (snd kv)) m :=
                 match m with
                 | [] => Forall_nil _
                 | kv :: m' =>
                     Forall_cons kv (JSONValue_ind (snd kv)) (all m')
                 end) m)
  end.
End JSONValue_induction.

(** ** Characters *)

Definition dquote : ascii := ascii_of_N 34.
Definition backslash : ascii := ascii_of_N 92.

Definition code (c : ascii) : N := N_of_ascii c.

Definition is_digit (c : ascii) : bool :=
  ((48 <=? code c) && (code c <=? 57))%N.

Definition is_ws (c : ascii) : bool :=
  ((code c =? 32) || (code c =? 9) || (code c =? 10) || (code c =? 13))%N.

(** ** Own property keys of an object

    A property key that is an array index (the canonical decimal form of an
    integer below 2^32 - 1) is enumerated before the other keys, in
    ascending numeric order; the other keys follow in creation order. *)

Definition array_index (k : string) : option N :=
  match NilEmpty.uint_of_string k with
  | Some u =>
      let n := N.of_uint u in
      if (NilZero.string_of_uint (N.to_uint n) =? k)%string
         && (n <? 4294967295)%N
      then Some n else None
  | None => None
  end.

Definition has_key (k : string) (m : list (string * JSONValue)) : bool :=
  existsb (fun kv => (fst kv =? k)%string) m.

Fixpoint set_value (k : string) (v : JSONValue)
    (m : list (string * JSONValue)) : list (string * JSONValue) :=
  match m with
  | [] => []
  | (k', v') :: m' =>
      if (k' =? k)%string then (k', v) :: m' else (k', v') :: set_value k v m'
  end.

Fixpoint insert_index (i : N) (k : string) (v : JSONValue)
    (m : list (string * JSONValue)) : list (string * JSONValue) :=
  match m with
  | [] => [(k, v)]
  | (k', v') :: m' =>
      match array_index k' with
      | Some j =>
          if (j <? i)%N then (k', v') :: insert_index i k v m'
          else (k, v) :: m
      | None => (k, v) :: m
      end
  end.

(** CreateDataProperty on an ordinary object. *)
Definition define_property (m : list (string * JSONValue))
    (kv : string * JSONValue) : list (string * JSONValue) :=
  let (k, v) := kv in
  if has_key k m then set_value k v m
  else match array_index k with
       | Some i => insert_index i k v m
       | None => m ++ [(k, v)]
       end.

(** The keys [ks] are in own-property order. *)
Fixpoint own_property_order (ks : list string) : bool :=
  match ks with
  | [] => true
  | k :: ks' =>
      match array_index k with
      | Some i =>
          forallb (fun k' => match array_index k' with
                             | Some j => (i <? j)%N
                             | None => true
                             end) ks'
      | None =>
          forallb (fun k' => match array_index k' with
                             | Some _ => false
                             | None => negb (k' =? k)%string
                             end) ks'
      end && own_property_order ks'
  end.

(** ** Representable values

    The values on which the encoding is exact: a number is a safe integer
    (at most 2^53 - 1 in absolute value, hence an exact double that is
    printed in plain decimal notation) and an object lists its properties
    in own-property order, without a repeated key. *)
Definition MAX_SAFE_INTEGER : Z := 9007199254740991.

Fixpoint representable (v : JSONValue) : bool :=
  match v with
  | JNull | JBoolean _ | JString _ => true
  | JNumber n => (Z.abs n <=? MAX_SAFE_INTEGER)%Z
  | JArray l => forallb representable l
  | JObject m =>
      own_property_order (map fst m)
      && forallb (fun kv => representable (snd kv)) m
  end.

(** ** JSON.stringify *)

Definition hex_digit (n : N) : ascii :=
  if (n <? 10)%N then ascii_of_N (48 + n) else ascii_of_N (87 + n).

(** One code unit of QuoteJSONString. *)
Definition quote_char (c : ascii) : string :=
  let n := code c in
  if (n =? 8)%N then String backslash "b"
  else if (n =? 9)%N then String backslash "t"
  else if (n =? 10)%N then String backslash "n"
  else if (n =? 12)%N then String backslash "f"
  else if (n =? 13)%N then String backslash "r"
  else if (n =? 34)%N then String backslash (String dquote EmptyString)
  else if (n =? 92)%N then String backslash (String backslash EmptyString)
  else if (n <? 32)%N then
    String backslash
      (String "u" (String "0" (String "0"
         (String (hex_digit (n / 16)) (String (hex_digit (n mod 16)) EmptyString)))))
  else String c EmptyString.

Fixpoint quote_chars (s : string) : string :=
  match s with
  | EmptyString => String dquote EmptyString
  | String c s' => quote_char c ++ quote_chars s'
  end.

Definition QuoteJSONString (s : string) : string :=
  String dquote (quote_chars s).

(** Number::toString on a safe integer: the digits in plain decimal
    notation.  (The language changes to the exponent notation from 10^21
    on; those numbers are not safe integers, and [representable] leaves
    them out.) *)
Definition Number_toString (n : Z) : string :=
  if (n <? 0)%Z
  then String "-" (NilZero.string_of_uint (N.to_uint (Z.abs_N n)))
  else NilZero.string_of_uint (N.to_uint (Z.abs_N n)).

Definition stringify_member (f : JSONValue -> string)
    (kv : string * JSONValue) : string :=
  QuoteJSONString (fst kv) ++ String ":" (f (snd kv)).

Fixpoint JSON_stringify (v : JSONValue) : string :=
  match v with
  | JNull => "null"
  | JBoolean true => "true"
  | JBoolean false => "false"
  | JNumber n => Number_toString n
  | JString s => QuoteJSONString s
  | JArray l => String "[" (concat "," (map JSON_stringify l) ++ "]")
  | JObject m =>
      String "{" (concat "," (map (stringify_member JSON_stringify) m) ++ "}")
  end.

(** ** JSON.parse *)

(** [SyntaxError] is the exception of JSON.parse.  [Unmodelled] marks a
    text whose value is not a value of [JSONValue] as embedded here (a
    number with a fraction or an exponent, negative zero, an integer that
    is not safe, a code unit above 255): the embedding does not say what
    JSON.parse returns on it.  [OutOfFuel] is internal, and [JSON_parse]
    never returns it ([JSON_parse_fuel]). *)
Inductive ParseError : Type := SyntaxError | Unmodelled | OutOfFuel.

Inductive Result (A : Type) : Type :=
| Ok (a : A)
| Err (e : ParseError).
Arguments Ok {A} a.
Arguments Err {A} e.

Definition rbind {A B} (r : Result A) (f : A -> Result B) : Result B :=
  match r with
  | Ok a => f a
  | Err e => Err e
  end.

Local Notation "' p <- r ;; k" := (rbind r (fun p => k))
  (at level 61, p pattern, r at next level, right associativity).

Fixpoint skip_ws (s : string) : string :=
  match s with
  | String c s' => if is_ws c then skip_ws s' else s
  | EmptyString => s
  end.

Fixpoint strip_prefix (p s : string) : option string :=
  match p, s with
  | EmptyString, _ => Some s
  | String a p', String b s' =>
      if Ascii.eqb a b then strip_prefix p' s' else None
  | String _ _, EmptyString => None
  end.

Definition parse_literal (lit : string) (v : JSONValue) (s : string)
  : Result (JSONValue * string) :=
  match strip_prefix lit s with
  | Some rest => Ok (v, rest)
  | None => Err SyntaxError
  end.

(** *** Numbers *)

Definition digit (c : ascii) (u : uint) : uint :=
  match (code c - 48)%N with
  | 0 => D0 u | 1 => D1 u | 2 => D2 u | 3 => D3 u | 4 => D4 u
  | 5 => D5 u | 6 => D6 u | 7 => D7 u | 8 => D8 u | _ => D9 u
  end%N.

Fixpoint read_digits (s : string) : uint * string :=
  match s with
  | String c s' =>
      if is_digit c
      then let (u, rest) := read_digits s' in (digit c u, rest)
      else (Nil, s)
  | EmptyString => (Nil, s)
  end.

(** int ::= 0 | [1-9][0-9]* *)
Definition parse_int (s : string) : Result (N * string) :=
  match s with
  | String c s' =>
      if Ascii.eqb c "0" then Ok (0%N, s')
      else if is_digit c
           then let (u, rest) := read_digits s in Ok (N.of_uint u, rest)
           else Err SyntaxError
  | EmptyString => Err SyntaxError
  end.

Definition starts_fraction_or_exponent (s : string) : bool :=
  match s with
  | String c _ => Ascii.eqb c "." || Ascii.eqb c "e" || Ascii.eqb c "E"
  | EmptyString => false
  end.

Definition parse_number (s : string) : Result (JSONValue * string) :=
  let (negative, s1) :=
    match s with
    | String c s' => if Ascii.eqb c "-" then (true, s') else (false, s)
    | EmptyString => (false, s)
    end in
  '(n, rest) <- parse_int s1 ;;
  if starts_fraction_or_exponent rest then Err Unmodelled
  else if (Z.of_N n >? MAX_SAFE_INTEGER)%Z then Err Unmodelled
  else if negative && (n =? 0)%N then Err Unmodelled
  else Ok (JNumber (if negative then - Z.of_N n else Z.of_N n)%Z, rest).

(** *** Strings *)

Definition hex_value (c : ascii) : option N :=
  let n := code c in
  if ((48 <=? n) && (n <=? 57))%N then Some (n - 48)%N
  else if ((97 <=? n) && (n <=? 102))%N then Some (n - 87)%N
  else if ((65 <=? n) && (n <=? 70))%N then Some (n - 55)%N
  else None.

Definition hex4 (a b c d : ascii) : option N :=
  match hex_value a, hex_value b, hex_value c, hex_value d with
  | Some x, Some y, Some z, Some w =>
      Some (((x * 16 + y) * 16 + z) * 16 + w)%N
  | _, _, _, _ => None
  end.

Definition unescape (e : ascii) : option ascii :=
  let n := code e in
  if (n =? 34)%N then Some dquote
  else if (n =? 92)%N then Some backslash
  else if (n =? 47)%N then Some "/"%char
  else if (n =? 98)%N then Some (ascii_of_N 8)
  else if (n =? 102)%N then Some (ascii_of_N 12)
  else if (n =? 110)%N then Some (ascii_of_N 10)
  else if (n =? 114)%N then Some (ascii_of_N 13)
  else if (n =? 116)%N then Some (ascii_of_N 9)
  else None.

Definition cons_char (c : ascii) (r : Result (string * string))
  : Result (string * string) :=
  '(s, rest) <- r ;; Ok (String c s, rest).

(** The characters of a string, after its opening quote. *)
Fixpoint parse_chars (s : string) : Result (string * string) :=
  match s with
  | EmptyString => Err SyntaxError
  | String c s' =>
      if Ascii.eqb c dquote then Ok (EmptyString, s')
      else if Ascii.eqb c backslash then
        match s' with
        | EmptyString => Err SyntaxError
        | String e s'' =>
            if Ascii.eqb e "u" then
              match s'' with
              | String h1 (String h2 (String h3 (String h4 s3))) =>
                  match hex4 h1 h2 h3 h4 with
                  | Some n =>
                      if (n <? 256)%N
                      then cons_char (ascii_of_N n) (parse_chars s3)
                      else Err Unmodelled
                  | None => Err SyntaxError
                  end
              | _ => Err SyntaxError
              end
            else
              match unescape e with
              | Some c' => cons_char c' (parse_chars s'')
              | None => Err SyntaxError
              end
        end
      else if (code c <? 32)%N then Err SyntaxError
      else cons_char c (parse_chars s')
  end.

(** *** Values *)

Section Composite.
(** The parser of one value, at the nesting level below. *)
Variable parse_element : string -> Result (JSONValue * string).

(** elements ::= value (ws "," value)* ws "]" *)
Fixpoint parse_elements (fuel : nat) (s : string)
  : Result (list JSONValue * string) :=
  match fuel with
  | O => Err OutOfFuel
  | S fuel' =>
      '(v, s1) <- parse_element s ;;
      match skip_ws s1 with
      | String c s2 =>
          if Ascii.eqb c "," then
            '(vs, rest) <- parse_elements fuel' s2 ;; Ok (v :: vs, rest)
          else if Ascii.eqb c "]" then Ok ([v], s2)
          else Err SyntaxError
      | EmptyString => Err SyntaxError
      end
  end.

(** members ::= ws string ws ":" value (ws "," members)* ws "}" *)
Fixpoint parse_members (fuel : nat) (s : string)
  : Result (list (string * JSONValue) * string) :=
  match fuel with
  | O => Err OutOfFuel
  | S fuel' =>
      match skip_ws s with
      | String q s1 =>
          if Ascii.eqb q dquote then
            '(k, s2) <- parse_chars s1 ;;
            match skip_ws s2 with
            | String c s3 =>
                if Ascii.eqb c ":" then
                  '(v, s4) <- parse_element s3 ;;
                  match skip_ws s4 with
                  | String d s5 =>
                      if Ascii.eqb d "," then
                        '(ms, rest) <- parse_members fuel' s5 ;;
                        Ok ((k, v) :: ms, rest)
                      else if Ascii.eqb d "}" then Ok ([(k, v)], s5)
                      else Err SyntaxError
                  | EmptyString => Err SyntaxError
                  end
                else Err SyntaxError
            | EmptyString => Err SyntaxError
            end
          else Err SyntaxError
      | EmptyString => Err SyntaxError
      end
  end.
End Composite.

Fixpoint parse_value (fuel : nat) (s : string)
  : Result (JSONValue * string) :=
  match fuel with
  | O => Err OutOfFuel
  | S fuel' =>
      match skip_ws s with
      | EmptyString => Err SyntaxError
      | String c s' =>
          if Ascii.eqb c "n" then parse_literal "null" JNull (String c s')
          else if Ascii.eqb c "t"
          then parse_literal "true" (JBoolean true) (String c s')
          else if Ascii.eqb c "f"
          then parse_literal "false" (JBoolean false) (String c s')
          else if Ascii.eqb c dquote then
            '(str, rest) <- parse_chars s' ;; Ok (JString str, rest)
          else if Ascii.eqb c "[" then
            match skip_ws s' with
            | String c' rest =>
                if Ascii.eqb c' "]" then Ok (JArray [], rest)
                else
                  '(vs, rest') <- parse_elements (parse_value fuel') fuel' s' ;;
                  Ok (JArray vs, rest')
            | EmptyString => Err SyntaxError
            end
          else if Ascii.eqb c "{" then
            match skip_ws s' with
            | String c' rest =>
                if Ascii.eqb c' "}" then Ok (JObject [], rest)
                else
                  '(ms, rest') <- parse_members (parse_value fuel') fuel' s' ;;
                  Ok (JObject (fold_left define_property ms []), rest')
            | EmptyString => Err SyntaxError
            end
          else if Ascii.eqb c "-" || is_digit c
          then parse_number (String c s')
          else Err SyntaxError
      end
  end.

(** JSON.parse(text): one value, surrounded by white space. *)
Definition JSON_parse (text : string) : Result JSONValue :=
  '(v, rest) <- parse_value (S (String.length text)) text ;;
  match skip_ws rest with
  | EmptyString => Ok v
  | String _ _ => Err SyntaxError
  end.

(** ** Definitions for the round trip *)

(** The digits of a number in canonical form: one zero, or no leading
    zero. *)
Definition canonical (u : uint) : bool :=
  match u with
  | Nil => false
  | D0 Nil => true
  | D0 _ => false
  | _ => true
  end.

(** What may follow a number in a text: not a digit, and not the start
    of a fraction or of an exponent. *)
Definition delimited (rest : string) : bool :=
  match rest with
  | EmptyString => true
  | String c _ => negb (is_digit c) && negb (starts_fraction_or_exponent rest)
  end.

(** The fuel that the parser needs for the value [v]: its depth, and the
    length of its longest list. *)
Fixpoint need (v : JSONValue) : nat :=
  match v with
  | JArray l =>
      S (fold_right (fun x n => Nat.max (need x) n) (List.length l) l)
  | JObject m =>
      S (fold_right (fun kv n => Nat.max (need (snd kv)) n) (List.length m) m)
  | _ => 1
  end.

(** The text [s] begins as a value does: not with white space and not
    with a closing bracket. *)
Definition begins_value (s : string) : bool :=
  match s with
  | EmptyString => false
  | String c _ =>
      negb (is_ws c) && negb (Ascii.eqb c "]") && negb (Ascii.eqb c "}")
  end.

(** The parser [pv] reads back the value [v] from its text, and stops
    at what follows. *)
Definition reads_back (pv : string -> Result (JSONValue * string))
    (v : JSONValue) : Prop :=
  forall rest, delimited rest = true ->
               pv (JSON_stringify v ++ rest)%string = Ok (v, rest).


End JSON.

Import JSON.

(* ================================================================== *)
(** * The invocation channel *)
(* ================================================================== *)

(** Modelled from the spec: the options of a scan, from scan-options.ts,
    which is not in the sources ("optional index name, optional key prefix,
    optional start key/exclusivity, optional limit"). *)
Record ScanOptions : Type := mkScanOptions {
  indexName : option string;
  prefix : option string;
  start_key : option string;
  start_exclusive : option bool;
  limit : option Z
}.

(** The key of a scanned entry: the primary key, or for a scan over an
    index the pair of the secondary and the primary key. *)
Inductive ScanKey : Type :=
| PrimaryKey (primary : string)
| IndexKey (secondary primary : string).

Module OpenTransactionResponse.
Record t : Type := make { transactionId : Z }.
End OpenTransactionResponse.

Module GetResponse.
Record t : Type := make { has : bool; value : option string }.
End GetResponse.

Module HasResponse.
Record t : Type := make { has : bool }.
End HasResponse.

Module DelResponse.
Record t : Type := make { ok : bool }.
End DelResponse.

(** The definition of an index, as [createIndex] takes it. *)
Record CreateIndexDefinition : Type := mkCreateIndexDefinition {
  name : string;
  keyPrefix : option string;
  jsonPointer : string
}.

Section Transactions.

(** The value encoding: the type of the values (json.ts) and the functions
    JSON.stringify and JSON.parse, which belong to the language and not to
    this repository.  The transactions are embedded for every encoding;
    [JSON], above, is the one of the concrete transactions below. *)
Variable JSONValue : Type.
Variable JSON_stringify : JSONValue -> string.
Variable JSON_parse : string -> Result JSONValue.

(** The types that repm-invoker.ts declares and the sources do not show:
    the arguments of an open request, the outcome of a commit, and the
    failures of the channel. *)
Variable OpenTransactionRequest : Type.
Variable CommitTransactionResponse : Type.
Variable Failure : Type.

(** A scanned entry: its key and its value. *)
Definition Entry : Type := (ScanKey * JSONValue)%type.

(** A call [invoke(rpc, args)]: the operation tag with its payload.  The
    [receiver] of a scan is not part of the data: the entries that the
    engine delivers to it come back as the response, and the caller runs
    its receiver on them ([invoke_Scan]). *)
Inductive Request : Type :=
| OpenTransaction (args : OpenTransactionRequest)
| OpenIndexTransaction (args : OpenTransactionRequest)
| Get (transactionId : Z) (key : string)
| Has (transactionId : Z) (key : string)
| Scan (transactionId : Z) (opts : ScanOptions)
| Put (transactionId : Z) (key : string) (value : string)
| Del (transactionId : Z) (key : string)
| CreateIndex (transactionId : Z) (name keyPrefix jsonPointer : string)
| DropIndex (transactionId : Z) (name : string)
| CommitTransaction (transactionId : Z)
| CloseTransaction (transactionId : Z).

Definition Response (req : Request) : Type :=
  match req with
  | OpenTransaction _ | OpenIndexTransaction _ => OpenTransactionResponse.t
  | Get _ _ => GetResponse.t
  | Has _ _ => HasResponse.t
  | Scan _ _ => list Entry
  | Put _ _ _ => unit
  | Del _ _ => DelResponse.t
  | CreateIndex _ _ _ _ => unit
  | DropIndex _ _ => unit
  | CommitTransaction _ => CommitTransactionResponse
  | CloseTransaction _ => unit
  end.

(** What an await of the channel resumes with. *)
Definition Answer (req : Request) : Type := (Failure + Response req)%type.

(** What a call throws: the error of [throwIfClosed], a failure of the
    channel, or the SyntaxError of JSON.parse.  [JSONParseError Unmodelled]
    stands for a call of JSON.parse on a text outside the embedding, on
    which the model is silent. *)
Inductive Error : Type :=
| TransactionClosedError
| ChannelFailure (f : Failure)
| JSONParseError (e : ParseError).

(* ================================================================ *)
(** * Objects and asynchronous methods *)
(* ================================================================ *)

Inductive OpenTransactionName : Type :=
| RPC_OpenTransaction
| RPC_OpenIndexTransaction.

(** The fields of [ReadTransactionImpl], which its two subclasses
    inherit; [_invoke] is the channel. *)
Record ReadTransactionImpl : Type := mkTransaction {
  _transactionId : Z;
  _closed : bool;
  _openTransactionName : OpenTransactionName
}.

(** get id() and get closed() *)
Definition id (tx : ReadTransactionImpl) : Z := _transactionId tx.
Definition closed (tx : ReadTransactionImpl) : bool := _closed tx.

(** The transaction object and the console ([console.error]). *)
Record State : Type := mkState {
  this : ReadTransactionImpl;
  console : list (string * Error)
}.

(** A call of a method: it has returned, has thrown, or is suspended at
    an [await] of the channel, to be resumed with the answer in the state
    of that later moment. *)
Inductive Step (A : Type) : Type :=
| Return (st : State) (a : A)
| Throw (st : State) (ex : Error)
| Await (st : State) (req : Request) (k : Answer req -> State -> Step A).
Arguments Return {A} st a.
Arguments Throw {A} st ex.
Arguments Await {A} st req k.

Definition Async (A : Type) : Type := State -> Step A.

Definition ret {A} (a : A) : Async A := fun st => Return st a.
Definition throw {A} (ex : Error) : Async A := fun st => Throw st ex.

Fixpoint bind_step {A B} (s : Step A) (f : A -> Async B) : Step B :=
  match s with
  | Return st a => f a st
  | Throw st ex => Throw st ex
  | Await st req k => Await st req (fun ans st' => bind_step (k ans st') f)
  end.

Definition bind {A B} (m : Async A) (f : A -> Async B) : Async B :=
  fun st => bind_step (m st) f.

(** try { body } catch (ex) { handler } *)
Fixpoint catch_step {A} (s : Step A) (handler : Error -> Async A) : Step A :=
  match s with
  | Return st a => Return st a
  | Throw st ex => handler ex st
  | Await st req k =>
      Await st req (fun ans st' => catch_step (k ans st') handler)
  end.

Definition try_catch {A} (body : Async A) (handler : Error -> Async A)
  : Async A :=
  fun st => catch_step (body st) handler.

(** await this._invoke(rpc, args): a failure of the channel is rethrown
    at the await. *)
Definition invoke (req : Request) : Async (Response req) :=
  fun st => Await st req (fun ans st' =>
    match ans with
    | inl f => Throw st' (ChannelFailure f)
    | inr r => Return st' r
    end).

Definition read_this : Async ReadTransactionImpl :=
  fun st => Return st (this st).

Definition with_closed (b : bool) (st : State) : State :=
  mkState (mkTransaction (_transactionId (this st)) b
             (_openTransactionName (this st)))
          (console st).

Definition with_transactionId (i : Z) (st : State) : State :=
  mkState (mkTransaction i (_closed (this st))
             (_openTransactionName (this st)))
          (console st).

Definition with_console_error (msg : string) (ex : Error) (st : State)
  : State :=
  mkState (this st) (console st ++ [(msg, ex)]).

(** this._closed = b *)
Definition write_closed (b : bool) : Async unit :=
  fun st => Return (with_closed b st) tt.

(** this._transactionId = i *)
Definition write_transactionId (i : Z) : Async unit :=
  fun st => Return (with_transactionId i st) tt.

(** console.error(msg, ex) *)
Definition console_error (msg : string) (ex : Error) : Async unit :=
  fun st => Return (with_console_error msg ex st) tt.

Declare Scope async_scope.
Delimit Scope async_scope with async.
Notation "x <- m ;; k" := (bind m (fun x => k))
  (at level 61, m at next level, right associativity) : async_scope.
Notation "m ;;; k" := (bind m (fun _ => k))
  (at level 61, right associativity) : async_scope.
Local Open Scope async_scope.

(** The scan request with its receiver: the receiver runs once for each
    entry that the engine delivers, in order, on the variables [l] that
    it closes over. *)
Definition invoke_Scan {L} (transactionId : Z) (opts : ScanOptions)
    (receiver : Entry -> L -> L) (l : L) : Async L :=
  items <- invoke (Scan transactionId opts) ;;
  ret (fold_left (fun l item => receiver item l) items l).

(** Modelled from the spec: [throwIfClosed], from
    transaction-closed-error.ts, which is not in the sources ("every
    read/write/index operation first checks closed; if true it fails
    immediately with a transaction closed error and issues no request to
    the channel"). *)
Definition throwIfClosed (tx : ReadTransactionImpl) : Async unit :=
  if closed tx then throw TransactionClosedError else ret tt.

(** JSON.parse(result.value), where the value may be undefined: the
    argument is converted to a string first. *)
Definition JSON_parse_value (value : option string) : Async JSONValue :=
  match JSON_parse (match value with
                    | Some text => text
                    | None => "undefined"
                    end) with
  | Ok v => ret v
  | Err e => throw (JSONParseError e)
  end.

(* ================================================================ *)
(** * ReadTransactionImpl *)
(* ================================================================ *)

Definition new_ReadTransactionImpl : ReadTransactionImpl :=
  mkTransaction (-1) false RPC_OpenTransaction.

Definition get (key : string) : Async (option JSONValue) :=
  tx <- read_this ;;
  throwIfClosed tx ;;;
  tx <- read_this ;;
  result <- invoke (Get (_transactionId tx) key) ;;
  if negb (GetResponse.has result) then ret None
  else
    v <- JSON_parse_value (GetResponse.value result) ;;
    ret (Some v).

Definition has (key : string) : Async bool :=
  tx <- read_this ;;
  throwIfClosed tx ;;;
  tx <- read_this ;;
  result <- invoke (Has (_transactionId tx) key) ;;
  ret (HasResponse.has result).

Definition isEmpty : Async bool :=
  tx <- read_this ;;
  throwIfClosed tx ;;;
  let empty := true in
  tx <- read_this ;;
  empty <- invoke_Scan (_transactionId tx)
             (mkScanOptions None None None None (Some 1%Z))
             (fun _ _ => false) empty ;;
  ret empty.

Definition open (args : OpenTransactionRequest) : Async unit :=
  tx <- read_this ;;
  match _openTransactionName tx with
  | RPC_OpenTransaction =>
      r <- invoke (OpenTransaction args) ;;
      write_transactionId (OpenTransactionResponse.transactionId r)
  | RPC_OpenIndexTransaction =>
      r <- invoke (OpenIndexTransaction args) ;;
      write_transactionId (OpenTransactionResponse.transactionId r)
  end.

Definition close : Async unit :=
  try_catch
    (write_closed true ;;;
     tx <- read_this ;;
     invoke (CloseTransaction (_transactionId tx)))
    (fun ex => console_error "Failed to close transaction" ex).

(* ================================================================ *)
(** * Scans *)
(* ================================================================ *)

(** An asynchronous generator: like a call, and it may also yield a
    value and wait to be advanced again. *)
Inductive Gen (Y : Type) : Type :=
| GDone (st : State)
| GThrow (st : State) (ex : Error)
| GAwait (st : State) (req : Request) (k : Answer req -> State -> Gen Y)
| GYield (st : State) (y : Y) (k : State -> Gen Y).
Arguments GDone {Y} st.
Arguments GThrow {Y} st ex.
Arguments GAwait {Y} st req k.
Arguments GYield {Y} st y k.

(** The generator runs a call and goes on with its result. *)
Fixpoint gen_bind {A Y} (s : Step A) (k : A -> State -> Gen Y) : Gen Y :=
  match s with
  | Return st a => k a st
  | Throw st ex => GThrow st ex
  | Await st req k' =>
      GAwait st req (fun ans st' => gen_bind (k' ans st') k)
  end.

(** for await (const y of it) acc = body(y, acc) *)
Fixpoint for_await {Y L} (it : Gen Y) (body : Y -> L -> L) (acc : L)
  : Step L :=
  match it with
  | GDone st => Return st acc
  | GThrow st ex => Throw st ex
  | GAwait st req k =>
      Await st req (fun ans st' => for_await (k ans st') body acc)
  | GYield st y k => for_await (k st) body (body y acc)
  end.

(** Modelled from the spec: [ScanResult], from scan-iterator.ts, which is
    not in the sources.  "A scan call does not itself perform I/O; it
    yields a sequence object"; its "construction captures (options,
    channel, transaction-liveness check)".  The fields are the arguments
    of the constructor call in [scan]; the spec gives no meaning to the
    last one. *)
Record ScanResult : Type := new_ScanResult {
  options : option ScanOptions;
  sr_invoke : forall req : Request, Async (Response req);
  getTransaction : Async ReadTransactionImpl;
  shouldCloseTransaction : bool
}.

Definition scan_opts (options : option ScanOptions) : ScanOptions :=
  match options with
  | Some o => o
  | None => mkScanOptions None None None None None
  end.

(** Modelled from the spec: an advancement of a view checks that the
    transaction is live ("each advancement re-check the liveness flag
    before issuing its request"; the view "must fail (propagating a
    transaction closed error) if the owning transaction closes before or
    during iteration"). *)
Definition check_live (sr : ScanResult) : Async unit :=
  (tx <- getTransaction sr ;; throwIfClosed tx)%async.

Fixpoint yield_all (sr : ScanResult) (items : list Entry) (st : State)
  : Gen Entry :=
  match items with
  | [] => GDone st
  | item :: rest =>
      GYield st item
        (fun st' => gen_bind (check_live sr st')
                      (fun _ => yield_all sr rest))
  end.

(** Modelled from the spec: the entries view of a [ScanResult].  When
    iterated it "issues one or more scan requests [...] with the original
    options plus the transaction id" (here one request) and yields the
    entries in the order of the engine. *)
Definition entries (sr : ScanResult) (st : State) : Gen Entry :=
  gen_bind
    ((check_live sr ;;;
      tx <- getTransaction sr ;;
      sr_invoke sr (Scan (id tx) (scan_opts (options sr)))) st)
    (yield_all sr).

Definition scan (options : option ScanOptions) : Async ScanResult :=
  ret (new_ScanResult options invoke read_this false).

Definition scanAll (options : option ScanOptions) : Async (list Entry) :=
  sr <- scan options ;;
  let it := entries sr in
  let result := [] in
  fun st => for_await (it st) (fun pair result => result ++ [pair]) result.

(* ================================================================ *)
(** * WriteTransactionImpl *)
(* ================================================================ *)

Definition new_WriteTransactionImpl : ReadTransactionImpl :=
  new_ReadTransactionImpl.

Definition put (key : string) (value : JSONValue) : Async unit :=
  tx <- read_this ;;
  throwIfClosed tx ;;;
  tx <- read_this ;;
  invoke (Put (id tx) key (JSON_stringify value)).

Definition del (key : string) : Async bool :=
  tx <- read_this ;;
  throwIfClosed tx ;;;
  tx <- read_this ;;
  result <- invoke (Del (id tx) key) ;;
  ret (DelResponse.ok result).

Definition WriteTransactionImpl_commit : Async CommitTransactionResponse :=
  write_closed true ;;;
  tx <- read_this ;;
  invoke (CommitTransaction (id tx)).

(* ================================================================ *)
(** * IndexTransactionImpl *)
(* ================================================================ *)

Definition new_IndexTransactionImpl : ReadTransactionImpl :=
  mkTransaction (-1) false RPC_OpenIndexTransaction.

(** options.keyPrefix || '' *)
Definition keyPrefix_or_empty (keyPrefix : option string) : string :=
  match keyPrefix with
  | Some p => if (p =? EmptyString)%string then EmptyString else p
  | None => EmptyString
  end.

Definition createIndex (options : CreateIndexDefinition) : Async unit :=
  tx <- read_this ;;
  throwIfClosed tx ;;;
  tx <- read_this ;;
  invoke (CreateIndex (id tx) (name options)
            (keyPrefix_or_empty (keyPrefix options))
            (jsonPointer options)).

Definition dropIndex (name : string) : Async unit :=
  tx <- read_this ;;
  throwIfClosed tx ;;;
  tx <- read_this ;;
  invoke (DropIndex (id tx) name).

Definition IndexTransactionImpl_commit : Async CommitTransactionResponse :=
  write_closed true ;;;
  tx <- read_this ;;
  invoke (CommitTransaction (id tx)).

(* ================================================================ *)
(** * Running a call against an engine *)
(* ================================================================ *)

Inductive Outcome (A : Type) : Type :=
| Returned (a : A)
| Thrown (ex : Error).
Arguments Returned {A} a.
Arguments Thrown {A} ex.

(** What a finished call leaves: the state, its outcome, the engine, and
    the requests that the channel has received, oldest first. *)
Record Run (Engine A : Type) : Type := mkRun {
  final : State;
  outcome : Outcome A;
  engine : Engine;
  requests : list Request
}.
Arguments mkRun {Engine A} final outcome engine requests.
Arguments final {Engine A} r.
Arguments outcome {Engine A} r.
Arguments engine {Engine A} r.
Arguments requests {Engine A} r.

Section Run.
(** The engine behind the channel: it answers each request. *)
Variable Engine : Type.
Variable respond : forall req : Request, Engine -> Answer req * Engine.

(** One caller, each await answered at once by the engine. *)
Fixpoint run_from {A} (s : Step A) (e : Engine) (sent : list Request)
  : Run Engine A :=
  match s with
  | Return st a => mkRun st (Returned a) e sent
  | Throw st ex => mkRun st (Thrown ex) e sent
  | Await st req k =>
      let (ans, e') := respond req e in
      run_from (k ans st) e' (sent ++ [req])
  end.

Definition run {A} (m : Async A) (st : State) (e : Engine)
  : Run Engine A :=
  run_from (m st) e [].
End Run.
Arguments run_from {Engine} respond {A} s e sent.
Arguments run {Engine} respond {A} m st e.

(* ================================================================ *)
(** * The operations of a transaction *)
(* ================================================================ *)

Inductive Operation : Type :=
| call_get (key : string)
| call_has (key : string)
| call_isEmpty
| call_scan (options : option ScanOptions)
| call_scanAll (options : option ScanOptions)
| call_open (args : OpenTransactionRequest)
| call_close
| call_put (key : string) (value : JSONValue)
| call_del (key : string)
| call_WriteTransactionImpl_commit
| call_createIndex (options : CreateIndexDefinition)
| call_dropIndex (name : string)
| call_IndexTransactionImpl_commit.

Definition discard {A} (m : Async A) : Async unit := m ;;; ret tt.

(** The call of an operation, its result dropped. *)
Definition perform (op : Operation) : Async unit :=
  match op with
  | call_get key => discard (get key)
  | call_has key => discard (has key)
  | call_isEmpty => discard isEmpty
  | call_scan options => discard (scan options)
  | call_scanAll options => discard (scanAll options)
  | call_open args => open args
  | call_close => close
  | call_put key value => put key value
  | call_del key => discard (del key)
  | call_WriteTransactionImpl_commit => discard WriteTransactionImpl_commit
  | call_createIndex options => createIndex options
  | call_dropIndex name => dropIndex name
  | call_IndexTransactionImpl_commit => discard IndexTransactionImpl_commit
  end.

(** The read, write and index operations that begin with
    [throwIfClosed]. *)
Definition guarded (op : Operation) : bool :=
  match op with
  | call_get _ | call_has _ | call_isEmpty
  | call_put _ _ | call_del _
  | call_createIndex _ | call_dropIndex _ => true
  | _ => false
  end.

(** The request that a guarded operation sends for the transaction [i]. *)
Definition request_of (op : Operation) (i : Z) : option Request :=
  match op with
  | call_get key => Some (Get i key)
  | call_has key => Some (Has i key)
  | call_isEmpty =>
      Some (Scan i (mkScanOptions None None None None (Some 1%Z)))
  | call_put key value => Some (Put i key (JSON_stringify value))
  | call_del key => Some (Del i key)
  | call_createIndex options =>
      Some (CreateIndex i (name options)
              (keyPrefix_or_empty (keyPrefix options))
              (jsonPointer options))
  | call_dropIndex name => Some (DropIndex i name)
  | _ => None
  end.

(** The operations that fail on a closed transaction: the guarded ones,
    and scanAll, which iterates a view of a scan. *)
Definition checks_closed (op : Operation) : bool :=
  match op with
  | call_scanAll _ => true
  | _ => guarded op
  end.

Definition is_open (op : Operation) : bool :=
  match op with
  | call_open _ => true
  | _ => false
  end.

(** The methods that end a transaction. *)
Definition ends_transaction (op : Operation) : bool :=
  match op with
  | call_close | call_WriteTransactionImpl_commit
  | call_IndexTransactionImpl_commit => true
  | _ => false
  end.

(** Every stretch of a call that runs without interruption, from the call
    or from a resumption to the next await or to the end, takes a state
    [st] to a state [st'] with [R st st']. *)
Inductive Stretches {A} (R : State -> State -> Prop)
  : State -> Step A -> Prop :=
| Stretches_Return st st' a :
    R st st' -> Stretches R st (Return st' a)
| Stretches_Throw st st' ex :
    R st st' -> Stretches R st (Throw st' ex)
| Stretches_Await st st' req k :
    R st st' ->
    (forall ans st2, Stretches R st2 (k ans st2)) ->
    Stretches R st (Await st' req k).

Inductive GenStretches {Y} (R : State -> State -> Prop)
  : State -> Gen Y -> Prop :=
| GenStretches_Done st st' :
    R st st' -> GenStretches R st (GDone st')
| GenStretches_Throw st st' ex :
    R st st' -> GenStretches R st (GThrow st' ex)
| GenStretches_Await st st' req k :
    R st st' ->
    (forall ans st2, GenStretches R st2 (k ans st2)) ->
    GenStretches R st (GAwait st' req k)
| GenStretches_Yield st st' y k :
    R st st' ->
    (forall st2, GenStretches R st2 (k st2)) ->
    GenStretches R st (GYield st' y k).

(** A call that never throws, whatever the channel answers. *)
Inductive NeverThrows {A} : Step A -> Prop :=
| NeverThrows_Return st a : NeverThrows (Return st a)
| NeverThrows_Await st req k :
    (forall ans st', NeverThrows (k ans st')) ->
    NeverThrows (Await st req k).

(** The closed flag, once true, is still true. *)
Definition closed_stays (st st' : State) : Prop :=
  closed (this st) = true -> closed (this st') = true.

(** The id is unchanged. *)
Definition id_unchanged (st st' : State) : Prop :=
  id (this st') = id (this st).

(** Scan, then drain: the entries that the view yields, in the order in
    which it yields them (the wording of the specification for
    [scanAll]). *)
Fixpoint drain {Y} (it : Gen Y) : Step (list Y) :=
  match it with
  | GDone st => Return st []
  | GThrow st ex => Throw st ex
  | GAwait st req k => Await st req (fun ans st' => drain (k ans st'))
  | GYield st y k => bind_step (drain (k st)) (fun ys => ret (y :: ys))
  end.

Definition scan_then_drain (options : option ScanOptions)
  : Async (list Entry) :=
  sr <- scan options ;;
  fun st => drain (entries sr st).


(** The result of get for the answer [r] of the engine. *)
Definition get_result (r : GetResponse.t) (st : State)
  : Step (option JSONValue) :=
  if GetResponse.has r then
    match JSON_parse (match GetResponse.value r with
                      | Some text => text
                      | None => "undefined"
                      end) with
    | Ok v => Return st (Some v)
    | Err e => Throw st (JSONParseError e)
    end
  else Return st None.

(* ================================================================ *)
(** * Two engines *)
(* ================================================================ *)

(** An engine that fails every request with [f]. *)
Definition failing_respond (f : Failure) (req : Request) (e : unit)
  : Answer req * unit :=
  (inl f, e).

(** Modelled from the spec: an engine that keeps the encoded values in
    memory, in the order of their keys, and answers as the table of the
    external interfaces says.  It assigns the ids 1, 2, ...; it answers a
    scan with the entries whose key has the prefix of the options, at
    most [limit] of them; it accepts every index definition and every
    commit, which it answers with [applied]. *)
Record Memory : Type := mkMemory {
  next_id : Z;
  store : list (string * string)
}.

Fixpoint store_get (key : string) (s : list (string * string))
  : option string :=
  match s with
  | [] => None
  | (k, text) :: s' => if (k =? key)%string then Some text else store_get key s'
  end.

Fixpoint store_put (key text : string) (s : list (string * string))
  : list (string * string) :=
  match s with
  | [] => [(key, text)]
  | (k, t) :: s' =>
      if (k =? key)%string then (key, text) :: s'
      else if (key <? k)%string then (key, text) :: s
      else (k, t) :: store_put key text s'
  end.

Fixpoint store_del (key : string) (s : list (string * string))
  : list (string * string) :=
  match s with
  | [] => []
  | (k, t) :: s' =>
      if (k =? key)%string then s' else (k, t) :: store_del key s'
  end.

Definition store_has (key : string) (s : list (string * string)) : bool :=
  match store_get key s with
  | Some _ => true
  | None => false
  end.

Definition store_scan (opts : ScanOptions) (s : list (string * string))
  : list Entry :=
  let selected :=
    flat_map
      (fun kt : string * string =>
         let (k, text) := kt in
         if match prefix opts with
            | Some p => String.prefix p k
            | None => true
            end
         then match JSON_parse text with
              | Ok v => [(PrimaryKey k, v)]
              | Err _ => []
              end
         else []) s in
  match limit opts with
  | Some n => firstn (Z.to_nat n) selected
  | None => selected
  end.

Definition memory_respond (applied : CommitTransactionResponse)
    (req : Request) (m : Memory) : Answer req * Memory :=
  match req as r return Answer r * Memory with
  | OpenTransaction _ | OpenIndexTransaction _ =>
      (inr (OpenTransactionResponse.make (next_id m)),
       mkMemory (next_id m + 1) (store m))
  | Get _ key =>
      (inr (GetResponse.make (store_has key (store m))
              (store_get key (store m))), m)
  | Has _ key => (inr (HasResponse.make (store_has key (store m))), m)
  | Scan _ opts => (inr (store_scan opts (store m)), m)
  | Put _ key value =>
      (inr tt, mkMemory (next_id m) (store_put key value (store m)))
  | Del _ key =>
      (inr (DelResponse.make (store_has key (store m))),
       mkMemory (next_id m) (store_del key (store m)))
  | CreateIndex _ _ _ _ => (inr tt, m)
  | DropIndex _ _ => (inr tt, m)
  | CommitTransaction _ => (inr applied, m)
  | CloseTransaction _ => (inr tt, m)
  end.

(** A transaction with the id [i] and the closed flag [c], and an empty
    console; the transaction that the constructor makes; an engine with
    nothing in its store. *)
Definition example_state (i : Z) (c : bool) : State :=
  mkState (mkTransaction i c RPC_OpenTransaction) [].

Definition fresh_state : State := mkState new_ReadTransactionImpl [].

Definition empty_memory : Memory := mkMemory 1 [].

(* ================================================================ *)
(** * What a call sends, throws and writes *)
(* ================================================================ *)

(** The operations that assign no field: the guarded ones and scan. *)
Definition writes_nothing (op : Operation) : bool :=
  match op with
  | call_scan _ => true
  | _ => guarded op
  end.

(** scanAll, which iterates a view of a [ScanResult]. *)
Definition iterates (op : Operation) : bool :=
  match op with
  | call_scanAll _ => true
  | _ => false
  end.

Definition is_get (op : Operation) : bool :=
  match op with
  | call_get _ => true
  | _ => false
  end.

Definition is_close (op : Operation) : bool :=
  match op with
  | call_close => true
  | _ => false
  end.

Definition is_commit (op : Operation) : bool :=
  match op with
  | call_WriteTransactionImpl_commit | call_IndexTransactionImpl_commit => true
  | _ => false
  end.

(** The transaction id in the payload of a request; the two open requests
    carry none. *)
Definition request_id (req : Request) : option Z :=
  match req with
  | OpenTransaction _ | OpenIndexTransaction _ => None
  | Get i _ | Has i _ | Scan i _ | Put i _ _ | Del i _
  | CreateIndex i _ _ _ | DropIndex i _
  | CommitTransaction i | CloseTransaction i => Some i
  end.

(** The request that a call of [op] sends in the state [st], if it sends
    one: a guarded operation sends none on a closed transaction, and scan
    never sends one. *)
Definition first_request (op : Operation) (st : State) : option Request :=
  match op with
  | call_open args =>
      Some (match _openTransactionName (this st) with
            | RPC_OpenTransaction => OpenTransaction args
            | RPC_OpenIndexTransaction => OpenIndexTransaction args
            end)
  | call_close => Some (CloseTransaction (id (this st)))
  | call_WriteTransactionImpl_commit | call_IndexTransactionImpl_commit =>
      Some (CommitTransaction (id (this st)))
  | call_scan _ | call_scanAll _ => None
  | _ => if closed (this st) then None else request_of op (id (this st))
  end.

(** Every request of a call, in the state in which the call sends it,
    satisfies [P]. *)
Inductive AllRequests {A} (P : State -> Request -> Prop) : Step A -> Prop :=
| AllRequests_Return st a : AllRequests P (Return st a)
| AllRequests_Throw st ex : AllRequests P (Throw st ex)
| AllRequests_Await st req k :
    P st req ->
    (forall ans st', AllRequests P (k ans st')) ->
    AllRequests P (Await st req k).

(** Every error that a call may throw satisfies [P]. *)
Inductive ThrowsOnly {A} (P : Error -> Prop) : Step A -> Prop :=
| ThrowsOnly_Return st a : ThrowsOnly P (Return st a)
| ThrowsOnly_Throw st ex : P ex -> ThrowsOnly P (Throw st ex)
| ThrowsOnly_Await st req k :
    (forall ans st', ThrowsOnly P (k ans st')) ->
    ThrowsOnly P (Await st req k).

(** A call that is over: it awaits nothing. *)
Definition Finished {A} (s : Step A) : Prop :=
  match s with
  | Await _ _ _ => False
  | _ => True
  end.

(** A call that awaits the channel once at most, whatever the answer. *)
Definition AtMostOneRequest {A} (s : Step A) : Prop :=
  match s with
  | Await _ _ k => forall ans st', Finished (k ans st')
  | _ => True
  end.

(** Every request of a generator, in the state in which it sends it,
    satisfies [P]. *)
Inductive GenAllRequests {Y} (P : State -> Request -> Prop)
  : Gen Y -> Prop :=
| GenAllRequests_Done st : GenAllRequests P (GDone st)
| GenAllRequests_Throw st ex : GenAllRequests P (GThrow st ex)
| GenAllRequests_Await st req k :
    P st req ->
    (forall ans st', GenAllRequests P (k ans st')) ->
    GenAllRequests P (GAwait st req k)
| GenAllRequests_Yield st y k :
    (forall st', GenAllRequests P (k st')) ->
    GenAllRequests P (GYield st y k).

(** The value [v] is representable: JSON.parse gives it back from the text
    that JSON.stringify makes of it. *)
Definition round_trips (v : JSONValue) : Prop :=
  JSON_parse (JSON_stringify v) = Ok v.

(** Two finished calls with the same outcome, the value that is returned
    or the error that is thrown, the same requests and the same engine. *)
Definition same_call {Engine A} (r1 r2 : Run Engine A) : Prop :=
  outcome r1 = outcome r2 /\
  requests r1 = requests r2 /\
  engine r1 = engine r2.

(** The request at which a call is suspended, if it is. *)
Definition awaited {A} (s : Step A) : option Request :=
  match s with
  | Await _ req _ => Some req
  | _ => None
  end.

(** The request carries the id that the transaction has. *)
Definition carries_id (st : State) (req : Request) : Prop :=
  request_id req = Some (id (this st)).

(** Between [st] and [st'] no field but the id was assigned. *)
Definition only_id_written (st st' : State) : Prop :=
  closed (this st') = closed (this st) /\
  _openTransactionName (this st') = _openTransactionName (this st) /\
  console st' = console st.

(** Between [st] and [st'] no field but the closed flag was assigned. *)
Definition only_closed_written (st st' : State) : Prop :=
  id (this st') = id (this st) /\
  _openTransactionName (this st') = _openTransactionName (this st) /\
  console st' = console st.

(** Between [st] and [st'] no field but the closed flag was assigned, and
    the console has kept what it had. *)
Definition only_closed_written_and_logged (st st' : State) : Prop :=
  id (this st') = id (this st) /\
  _openTransactionName (this st') = _openTransactionName (this st) /\
  exists lines, console st' = console st ++ lines.

(** The error is not the one of a closed transaction. *)
Definition not_closed_error (ex : Error) : Prop :=
  ex <> TransactionClosedError.

(** The error is not one of JSON.parse. *)
Definition not_parse_error (ex : Error) : Prop :=
  forall e, ex <> JSONParseError e.

(** The state that a failed request leaves: commit has closed the
    transaction, the other operations have written nothing. *)
Definition after_failure (op : Operation) (st : State) : State :=
  if is_commit op then with_closed true st else st.

(* ================================================================ *)
(** * Properties of the transactions *)
(* ================================================================ *)

Lemma guarded_throws (op : Operation) (st : State) :
  guarded op = true ->
  closed (this st) = true ->
  perform op st = Throw st TransactionClosedError.
Proof.
  unfold closed. intros Hg Hc.
  destruct op; try discriminate Hg; cbn;
    unfold throwIfClosed, closed; rewrite Hc; reflexivity.
Qed.

Lemma guarded_sends (op : Operation) (st : State) :
  guarded op = true ->
  closed (this st) = false ->
  exists req k,
    request_of op (id (this st)) = Some req /\
    perform op st = Await st req k.
Proof.
  unfold closed. intros Hg Hc.
  destruct op; try discriminate Hg; cbn;
    unfold throwIfClosed, closed; rewrite Hc; cbn;
    eexists; eexists; (split; [reflexivity | reflexivity]).
Qed.

(** The state in which a call that ends the transaction leaves it, in a
    run against any engine, is closed. *)
Lemma ends_transaction_closed (Engine : Type)
    (respond : forall req, Engine -> Answer req * Engine)
    (op : Operation) (st : State) (e : Engine) :
  ends_transaction op = true ->
  closed (this (final (run respond (perform op) st e))) = true.
Proof.
  intros He. destruct op; try discriminate He; unfold run; cbn;
    match goal with
    | |- context [respond ?req e] =>
        destruct (respond req e) as [[f | r] e']; reflexivity
    end.
Qed.

(** C1.  On a transaction whose closed flag is true, each of get, has,
    isEmpty, put, del, createIndex and dropIndex throws
    TransactionClosedError at once, before any await: the call is a throw,
    in the unchanged state.  Against every engine the outcome is that
    error, the channel receives no request and the engine is as it was.  In
    particular this is so in the state that close() or commit() has left,
    whatever the channel answered to them. *)
Theorem C1_closed_transaction_rejects (st : State) :
  closed (this st) = true ->
  ((forall key, get key st = Throw st TransactionClosedError) /\
   (forall key, has key st = Throw st TransactionClosedError) /\
   isEmpty st = Throw st TransactionClosedError /\
   (forall key value, put key value st = Throw st TransactionClosedError) /\
   (forall key, del key st = Throw st TransactionClosedError) /\
   (forall options, createIndex options st = Throw st TransactionClosedError) /\
   (forall name, dropIndex name st = Throw st TransactionClosedError)) /\
  (forall (op : Operation) (Engine : Type)
          (respond : forall req, Engine -> Answer req * Engine)
          (e : Engine),
      guarded op = true ->
      run respond (perform op) st e
        = mkRun st (Thrown TransactionClosedError) e []) /\
  (forall (op : Operation) (Engine : Type)
          (respond : forall req, Engine -> Answer req * Engine)
          (e0 : Engine) (st0 : State) (ending : Operation),
      guarded op = true ->
      ends_transaction ending = true ->
      let r := run respond (perform ending) st0 e0 in
      run respond (perform op) (final r) (engine r)
        = mkRun (final r) (Thrown TransactionClosedError) (engine r) []).
Proof.
  intros Hc. split; [| split].
  - unfold closed in Hc.
    repeat split; intros; cbn; unfold throwIfClosed, closed; rewrite Hc;
      reflexivity.
  - intros op Engine respond e Hg. unfold run.
    now rewrite (guarded_throws op st Hg Hc).
  - intros op Engine respond e0 st0 ending Hg He r. unfold run.
    now rewrite (guarded_throws op (final r) Hg
                   (ends_transaction_closed Engine respond ending st0 e0 He)).
Qed.

(** C2.  close() sets the closed flag and only then sends the
    close-transaction request, with the id of the transaction: the call
    is suspended at that request in a state whose flag is true.  Whatever
    the channel answers, and in whatever state the call is resumed, it
    returns and does not throw; a failure of the channel is written to
    the console and nothing else changes.  In a run against any engine
    the call returns and leaves the flag true. *)
Theorem C2_close_sets_closed_and_swallows_failures (st : State) :
  (exists k,
      close st
        = Await (with_closed true st) (CloseTransaction (id (this st))) k /\
      closed (this (with_closed true st)) = true /\
      (forall st' r, k (inr r) st' = Return st' tt) /\
      (forall st' f,
          k (inl f) st'
            = Return (with_console_error "Failed to close transaction"
                        (ChannelFailure f) st') tt)) /\
  NeverThrows (close st) /\
  (forall (Engine : Type)
          (respond : forall req, Engine -> Answer req * Engine)
          (e : Engine),
      outcome (run respond close st e) = Returned tt /\
      closed (this (final (run respond close st e))) = true /\
      requests (run respond close st e)
        = [CloseTransaction (id (this st))]).
Proof.
  split; [| split].
  - eexists. split; [reflexivity |]. split; [reflexivity |].
    split; intros; [destruct r |]; reflexivity.
  - cbn. constructor. intros [f | []] st'; cbn; constructor.
  - intros Engine respond e. unfold run. cbn.
    destruct (respond (CloseTransaction (_transactionId (this st))) e)
      as [[f | []] e']; cbn; auto.
Qed.

(** C4.  commit(), of a write transaction and of an index transaction
    alike, sets the closed flag and then sends the commit-transaction
    request with the id of the transaction; the outcome of the engine is
    returned as it is, and a failure of the channel is thrown as it
    is. *)
Theorem C4_commit_sets_closed_and_propagates (st : State) :
  let committing (commit : Async CommitTransactionResponse) :=
    exists k,
      commit st
        = Await (with_closed true st)
            (CommitTransaction (id (this st))) k /\
      closed (this (with_closed true st)) = true /\
      (forall st' r, k (inr r) st' = Return st' r) /\
      (forall st' f, k (inl f) st' = Throw st' (ChannelFailure f)) in
  committing WriteTransactionImpl_commit /\
  committing IndexTransactionImpl_commit.
Proof.
  split; (eexists; split; [reflexivity |]; split; [reflexivity |];
          split; intros; reflexivity).
Qed.

(** C6.  On an open transaction get(key) sends one request, a get
    request with the id and the key.  If the engine answers that the key
    is absent, get returns undefined; if it is present, get returns the
    value that JSON.parse decodes from the answer; if JSON.parse throws
    its SyntaxError, get throws it. *)
Theorem C6_get (st : State) (key : string) :
  closed (this st) = false ->
  (exists k,
      get key st = Await st (Get (id (this st)) key) k /\
      (forall st' r, k (inr r) st' = get_result r st') /\
      (forall st' f, k (inl f) st' = Throw st' (ChannelFailure f))) /\
  (forall (Engine : Type)
          (respond : forall req, Engine -> Answer req * Engine)
          (e : Engine),
      requests (run respond (get key) st e) = [Get (id (this st)) key]) /\
  (forall st' value, get_result (GetResponse.make false value) st'
                     = Return st' None) /\
  (forall st' text v,
      JSON_parse text = Ok v ->
      get_result (GetResponse.make true (Some text)) st'
        = Return st' (Some v)) /\
  (forall st' text,
      JSON_parse text = Err SyntaxError ->
      get_result (GetResponse.make true (Some text)) st'
        = Throw st' (JSONParseError SyntaxError)).
Proof.
  unfold closed. intros Hc. split; [| split; [| split; [| split]]].
  - cbn. unfold throwIfClosed, closed. rewrite Hc. cbn.
    eexists. split; [reflexivity |]. split.
    + intros st' r. cbn. unfold get_result, JSON_parse_value.
      destruct (GetResponse.has r); cbn; [| reflexivity].
      destruct (JSON_parse _); reflexivity.
    + reflexivity.
  - intros Engine respond e. unfold run. cbn.
    unfold throwIfClosed, closed. rewrite Hc. cbn.
    destruct (respond (Get (_transactionId (this st)) key) e)
      as [[f | r] e']; cbn; [reflexivity |].
    unfold JSON_parse_value.
    destruct (GetResponse.has r); cbn; [| reflexivity].
    destruct (JSON_parse _); reflexivity.
  - reflexivity.
  - intros st' text v H. unfold get_result. cbn. now rewrite H.
  - intros st' text H. unfold get_result. cbn. now rewrite H.
Qed.

Lemma receiver_fold (items : list Entry) (b : bool) :
  fold_left (fun (l : bool) (_ : Entry) => false) items b
  = match items with [] => b | _ :: _ => false end.
Proof.
  destruct items as [| x items]; [reflexivity |]. cbn.
  induction items as [| y items IH]; [reflexivity | exact IH].
Qed.

(** C8.  On an open transaction isEmpty() sends one request: a scan of
    the primary key space (no index name) with limit 1.  It returns true
    if and only if the engine delivers no entry to the receiver. *)
Theorem C8_isEmpty (st : State) :
  closed (this st) = false ->
  (exists k,
      isEmpty st
        = Await st
            (Scan (id (this st))
               (mkScanOptions None None None None (Some 1%Z))) k /\
      (forall st' (items : list Entry),
          exists b, k (inr items) st' = Return st' b /\
                    (b = true <-> items = [])) /\
      (forall st' f, k (inl f) st' = Throw st' (ChannelFailure f))) /\
  (forall (Engine : Type)
          (respond : forall req, Engine -> Answer req * Engine)
          (e : Engine),
      requests (run respond isEmpty st e)
        = [Scan (id (this st))
             (mkScanOptions None None None None (Some 1%Z))]).
Proof.
  unfold closed. intros Hc. split.
  - cbn. unfold throwIfClosed, closed. rewrite Hc. cbn.
    eexists. split; [reflexivity |]. split; [| reflexivity].
    intros st' items. cbn. eexists. split; [reflexivity |].
    rewrite receiver_fold. destruct items; split; congruence.
  - intros Engine respond e. unfold run. cbn.
    unfold throwIfClosed, closed. rewrite Hc. cbn.
    destruct (respond _ e) as [[f | items] e']; reflexivity.
Qed.

Section Stretches.
Variable R : State -> State -> Prop.
Hypothesis R_refl : forall st, R st st.
Hypothesis R_trans : forall a b c, R a b -> R b c -> R a c.

Lemma Stretches_first {A} (st0 st : State) (s : Step A) :
  R st0 st -> Stretches R st s -> Stretches R st0 s.
Proof.
  intros H0 H. destruct H; constructor; eauto.
Qed.

Lemma Stretches_bind_step {A B} (st : State) (s : Step A)
    (f : A -> Async B) :
  Stretches R st s ->
  (forall a st', Stretches R st' (f a st')) ->
  Stretches R st (bind_step s f).
Proof.
  intros H Hf. induction H as [st st' a H | st st' ex H | st st' req k H Hk IH];
    cbn.
  - eapply Stretches_first; eauto.
  - now constructor.
  - constructor; auto.
Qed.

Lemma Stretches_bind {A B} (st : State) (m : Async A)
    (f : A -> Async B) :
  Stretches R st (m st) ->
  (forall a st', Stretches R st' (f a st')) ->
  Stretches R st (bind m f st).
Proof. apply Stretches_bind_step. Qed.

Lemma Stretches_catch {A} (st : State) (s : Step A)
    (handler : Error -> Async A) :
  Stretches R st s ->
  (forall ex st', Stretches R st' (handler ex st')) ->
  Stretches R st (catch_step s handler).
Proof.
  intros H Hh. induction H as [st st' a H | st st' ex H | st st' req k H Hk IH];
    cbn.
  - now constructor.
  - eapply Stretches_first; eauto.
  - constructor; auto.
Qed.

Lemma Stretches_ret {A} (st : State) (a : A) : Stretches R st (ret a st).
Proof. constructor. apply R_refl. Qed.

Lemma Stretches_throw {A} (st : State) (ex : Error) :
  Stretches R st (@throw A ex st).
Proof. constructor. apply R_refl. Qed.

Lemma Stretches_read_this (st : State) : Stretches R st (read_this st).
Proof. constructor. apply R_refl. Qed.

Lemma Stretches_invoke (st : State) (req : Request) :
  Stretches R st (invoke req st).
Proof.
  constructor; [apply R_refl |].
  intros [f | r] st2; constructor; apply R_refl.
Qed.

Lemma Stretches_throwIfClosed (st : State) (tx : ReadTransactionImpl) :
  Stretches R st (throwIfClosed tx st).
Proof.
  unfold throwIfClosed, closed. destruct (_closed tx);
    [apply Stretches_throw | apply Stretches_ret].
Qed.

Lemma Stretches_guard_then {A} (st : State) (f : Async A) :
  (forall st', Stretches R st' (f st')) ->
  Stretches R st ((tx <- read_this ;; throwIfClosed tx ;;; f) st).
Proof.
  intros Hf. apply Stretches_bind; [apply Stretches_read_this |].
  intros tx st1. apply Stretches_bind; [apply Stretches_throwIfClosed |].
  intros _ st2. apply Hf.
Qed.

Lemma Stretches_discard {A} (st : State) (m : Async A) :
  Stretches R st (m st) -> Stretches R st (discard m st).
Proof.
  intros H. apply Stretches_bind; [exact H |].
  intros a st'. apply Stretches_ret.
Qed.

Lemma GenStretches_first {Y} (st0 st : State) (g : Gen Y) :
  R st0 st -> GenStretches R st g -> GenStretches R st0 g.
Proof.
  intros H0 H. destruct H; constructor; eauto.
Qed.

Lemma GenStretches_gen_bind {A Y} (st : State) (s : Step A)
    (k : A -> State -> Gen Y) :
  Stretches R st s ->
  (forall a st', GenStretches R st' (k a st')) ->
  GenStretches R st (gen_bind s k).
Proof.
  intros H Hk. induction H as [st st' a H | st st' ex H | st st' req k' H Hk' IH];
    cbn.
  - eapply GenStretches_first; eauto.
  - now constructor.
  - constructor; auto.
Qed.

Lemma Stretches_for_await {Y L} (st : State) (it : Gen Y)
    (body : Y -> L -> L) (acc : L) :
  GenStretches R st it -> Stretches R st (for_await it body acc).
Proof.
  intros H. revert acc.
  induction H as [st st' H | st st' ex H | st st' req k H Hk IH
                 | st st' y k H Hk IH]; intros acc; cbn.
  - now constructor.
  - now constructor.
  - constructor; auto.
  - eapply Stretches_first; [exact H | apply IH].
Qed.

(** The views of a scan result that reads the transaction and calls the
    channel only. *)
Lemma Stretches_check_live (st : State) (options : option ScanOptions)
    (b : bool) :
  Stretches R st (check_live (new_ScanResult options invoke read_this b) st).
Proof.
  unfold check_live. cbn [getTransaction].
  apply Stretches_bind; [apply Stretches_read_this |].
  intros tx st'. apply Stretches_throwIfClosed.
Qed.

Lemma GenStretches_yield_all (options : option ScanOptions) (b : bool)
    (items : list Entry) (st : State) :
  GenStretches R st
    (yield_all (new_ScanResult options invoke read_this b) items st).
Proof.
  revert st. induction items as [| item rest IH]; intros st;
    cbn [yield_all].
  - constructor. apply R_refl.
  - constructor; [apply R_refl |]. intros st2.
    apply GenStretches_gen_bind; [apply Stretches_check_live |].
    intros _ st'. apply IH.
Qed.

Lemma GenStretches_entries (options : option ScanOptions) (b : bool)
    (st : State) :
  GenStretches R st (entries (new_ScanResult options invoke read_this b) st).
Proof.
  unfold entries. apply GenStretches_gen_bind.
  - apply Stretches_bind; [apply Stretches_check_live |].
    intros _ st1. cbn [getTransaction sr_invoke].
    apply Stretches_bind; [apply Stretches_read_this |].
    intros tx st2. exact (Stretches_invoke st2 (Scan _ _)).
  - intros items st'. apply GenStretches_yield_all.
Qed.

(** The operations that write no field of the transaction. *)
Lemma Stretches_reads_and_requests (op : Operation) (st : State) :
  match op with
  | call_open _ | call_close | call_WriteTransactionImpl_commit
  | call_IndexTransactionImpl_commit => True
  | _ => Stretches R st (perform op st)
  end.
Proof.
  destruct op; try exact I; cbn [perform].
  - (* get *)
    apply Stretches_discard. unfold get. apply Stretches_guard_then.
    intros st1. apply Stretches_bind; [apply Stretches_read_this |].
    intros tx st2.
    apply Stretches_bind; [exact (Stretches_invoke st2 (Get _ _)) |].
    intros r st3. destruct (negb (GetResponse.has r)); [apply Stretches_ret |].
    apply Stretches_bind; [| intros; apply Stretches_ret].
    unfold JSON_parse_value. destruct (JSON_parse _);
      [apply Stretches_ret | apply Stretches_throw].
  - (* has *)
    apply Stretches_discard. unfold has. apply Stretches_guard_then.
    intros st1. apply Stretches_bind; [apply Stretches_read_this |].
    intros tx st2.
    apply Stretches_bind; [exact (Stretches_invoke st2 (Has _ _)) |].
    intros r st3. apply Stretches_ret.
  - (* isEmpty *)
    apply Stretches_discard. unfold isEmpty. apply Stretches_guard_then.
    intros st1. apply Stretches_bind; [apply Stretches_read_this |].
    intros tx st2. apply Stretches_bind; [| intros; apply Stretches_ret].
    unfold invoke_Scan.
    apply Stretches_bind; [exact (Stretches_invoke st2 (Scan _ _)) |].
    intros; apply Stretches_ret.
  - (* scan *)
    apply Stretches_discard. apply Stretches_ret.
  - (* scanAll *)
    apply Stretches_discard. unfold scanAll, scan, bind, ret.
    cbn [bind_step]. apply Stretches_for_await, GenStretches_entries.
  - (* put *)
    unfold put. apply Stretches_guard_then.
    intros st1. apply Stretches_bind; [apply Stretches_read_this |].
    intros tx st2. exact (Stretches_invoke st2 (Put _ _ _)).
  - (* del *)
    apply Stretches_discard. unfold del. apply Stretches_guard_then.
    intros st1. apply Stretches_bind; [apply Stretches_read_this |].
    intros tx st2.
    apply Stretches_bind; [exact (Stretches_invoke st2 (Del _ _)) |].
    intros r st3. apply Stretches_ret.
  - (* createIndex *)
    unfold createIndex. apply Stretches_guard_then.
    intros st1. apply Stretches_bind; [apply Stretches_read_this |].
    intros tx st2. exact (Stretches_invoke st2 (CreateIndex _ _ _ _)).
  - (* dropIndex *)
    unfold dropIndex. apply Stretches_guard_then.
    intros st1. apply Stretches_bind; [apply Stretches_read_this |].
    intros tx st2. exact (Stretches_invoke st2 (DropIndex _ _)).
Qed.

(** close and commit write the closed flag, and nothing else. *)
Lemma Stretches_ending (op : Operation) (st : State) :
  ends_transaction op = true ->
  (forall st', R st' (with_closed true st')) ->
  (forall msg ex st', R st' (with_console_error msg ex st')) ->
  Stretches R st (perform op st).
Proof.
  intros He Hclosed Hconsole.
  destruct op; try discriminate He; cbn [perform].
  - unfold close, try_catch. apply Stretches_catch.
    + apply Stretches_bind; [constructor; apply Hclosed |].
      intros _ st1. apply Stretches_bind; [apply Stretches_read_this |].
      intros tx st2. exact (Stretches_invoke st2 (CloseTransaction _)).
    + intros ex st'. constructor. apply Hconsole.
  - apply Stretches_discard. unfold WriteTransactionImpl_commit.
    apply Stretches_bind; [constructor; apply Hclosed |].
    intros _ st1. apply Stretches_bind; [apply Stretches_read_this |].
    intros tx st2. exact (Stretches_invoke st2 (CommitTransaction _)).
  - apply Stretches_discard. unfold IndexTransactionImpl_commit.
    apply Stretches_bind; [constructor; apply Hclosed |].
    intros _ st1. apply Stretches_bind; [apply Stretches_read_this |].
    intros tx st2. exact (Stretches_invoke st2 (CommitTransaction _)).
Qed.

(** open writes the id, and nothing else. *)
Lemma Stretches_open (args : OpenTransactionRequest) (st : State) :
  (forall i st', R st' (with_transactionId i st')) ->
  Stretches R st (open args st).
Proof.
  intros Hid. unfold open.
  apply Stretches_bind; [apply Stretches_read_this |].
  intros tx st1. destruct (_openTransactionName tx).
  - apply Stretches_bind;
      [exact (Stretches_invoke st1 (OpenTransaction _)) |].
    intros r st2. constructor. apply Hid.
  - apply Stretches_bind;
      [exact (Stretches_invoke st1 (OpenIndexTransaction _)) |].
    intros r st2. constructor. apply Hid.
Qed.
End Stretches.

Lemma closed_stays_refl (st : State) : closed_stays st st.
Proof. intros H; exact H. Qed.

Lemma closed_stays_trans (a b c : State) :
  closed_stays a b -> closed_stays b c -> closed_stays a c.
Proof. unfold closed_stays. auto. Qed.

Lemma id_unchanged_refl (st : State) : id_unchanged st st.
Proof. reflexivity. Qed.

Lemma id_unchanged_trans (a b c : State) :
  id_unchanged a b -> id_unchanged b c -> id_unchanged a c.
Proof. unfold id_unchanged. congruence. Qed.

(** No operation sets the closed flag back to false. *)
Lemma closed_never_reverts (op : Operation) (st : State) :
  Stretches closed_stays st (perform op st).
Proof.
  pose proof (Stretches_reads_and_requests closed_stays closed_stays_refl
                closed_stays_trans op st) as H.
  destruct op; try exact H.
  - apply (Stretches_open closed_stays closed_stays_refl
             closed_stays_trans).
    intros i st' Hc. exact Hc.
  - apply (Stretches_ending closed_stays closed_stays_refl
             closed_stays_trans);
      [reflexivity | intros st' _; reflexivity | intros msg ex st' Hc; exact Hc].
  - apply (Stretches_ending closed_stays closed_stays_refl
             closed_stays_trans);
      [reflexivity | intros st' _; reflexivity | intros msg ex st' Hc; exact Hc].
  - apply (Stretches_ending closed_stays closed_stays_refl
             closed_stays_trans);
      [reflexivity | intros st' _; reflexivity | intros msg ex st' Hc; exact Hc].
Qed.

Lemma scanAll_throws_when_closed (options : option ScanOptions)
    (st : State) :
  closed (this st) = true ->
  scanAll options st = Throw st TransactionClosedError.
Proof.
  unfold closed. intros Hc. cbn. unfold throwIfClosed, closed. rewrite Hc.
  reflexivity.
Qed.

(** C3 (as amended).  No operation sets the closed flag back to false:
    in every stretch of every call, a flag that is true at the beginning
    is true at the end.  On a transaction whose flag is true, get, has,
    isEmpty, scanAll, put, del, createIndex and dropIndex throw
    TransactionClosedError and send nothing.  The methods close, commit
    and open have no such check: they send their request.  And scan
    returns. *)
Theorem C3_closed_is_monotone (op : Operation) (st : State) :
  closed (this st) = true ->
  Stretches closed_stays st (perform op st) /\
  (checks_closed op = true ->
     perform op st = Throw st TransactionClosedError) /\
  (ends_transaction op = true ->
     exists k,
       perform op st
         = Await st
             (match op with
              | call_close => CloseTransaction (id (this st))
              | _ => CommitTransaction (id (this st))
              end) k) /\
  (is_open op = true -> exists req k, perform op st = Await st req k) /\
  (forall options, op = call_scan options -> perform op st = Return st tt).
Proof.
  intros Hc. split; [apply closed_never_reverts |].
  split; [| split; [| split]].
  - intros Hg. destruct op; try discriminate Hg;
      try (apply guarded_throws; [reflexivity | exact Hc]).
    cbn [perform]. unfold discard, bind.
    now rewrite scanAll_throws_when_closed.
  - intros He. assert (Hst : with_closed true st = st).
    { unfold with_closed. unfold closed in Hc. rewrite <- Hc.
      destruct st as [[i c n] co]. reflexivity. }
    destruct op; try discriminate He; cbn; fold (with_closed true st);
      rewrite Hst; eexists; reflexivity.
  - intros Ho. destruct op; try discriminate Ho. cbn.
    destruct (_openTransactionName (this st)); cbn;
      eexists; eexists; reflexivity.
  - intros options ->. reflexivity.
Qed.

(** C5 (as amended).  The id is written by open alone: every other
    operation leaves it as it is, in every stretch of its call; open
    sends the open request that the class names, and writes the id that
    the engine assigns when the request succeeds.  No operation checks
    that the id has been assigned: on a transaction that is not closed,
    get, has, isEmpty, put, del, createIndex and dropIndex send their
    request with the id as it is, be it the initial -1. *)
Theorem C5_id_written_by_open_only (st : State) :
  (forall op, is_open op = false ->
              Stretches id_unchanged st (perform op st)) /\
  (forall args,
      _openTransactionName (this st) = RPC_OpenTransaction ->
      exists k,
        open args st = Await st (OpenTransaction args) k /\
        (forall st' r,
            k (inr r) st'
            = Return (with_transactionId
                        (OpenTransactionResponse.transactionId r) st') tt) /\
        (forall st' f, k (inl f) st' = Throw st' (ChannelFailure f))) /\
  (forall args,
      _openTransactionName (this st) = RPC_OpenIndexTransaction ->
      exists k,
        open args st = Await st (OpenIndexTransaction args) k /\
        (forall st' r,
            k (inr r) st'
            = Return (with_transactionId
                        (OpenTransactionResponse.transactionId r) st') tt) /\
        (forall st' f, k (inl f) st' = Throw st' (ChannelFailure f))) /\
  (forall op, guarded op = true -> closed (this st) = false ->
              exists req k,
                request_of op (id (this st)) = Some req /\
                perform op st = Await st req k).
Proof.
  split; [| split; [| split]].
  - intros op Ho.
    pose proof (Stretches_reads_and_requests id_unchanged id_unchanged_refl
                  id_unchanged_trans op st) as H.
    destruct op; try exact H; try discriminate Ho;
      (apply (Stretches_ending id_unchanged id_unchanged_refl
                id_unchanged_trans);
       [reflexivity | intros; reflexivity | intros; reflexivity]).
  - intros args Hn. unfold open, bind, read_this. cbn [bind_step].
    rewrite Hn. cbn. eexists. split; [reflexivity |].
    split; intros; reflexivity.
  - intros args Hn. unfold open, bind, read_this. cbn [bind_step].
    rewrite Hn. cbn. eexists. split; [reflexivity |].
    split; intros; reflexivity.
  - intros op. apply guarded_sends.
Qed.

Section Runs.
Variable Engine : Type.
Variable respond : forall req : Request, Engine -> Answer req * Engine.

Lemma run_from_bind_assoc {A B C} (s : Step A) (f : A -> Async B)
    (g : B -> Async C) (e : Engine) (sent : list Request) :
  run_from respond (bind_step (bind_step s f) g) e sent
  = run_from respond (bind_step s (fun a st => bind_step (f a st) g))
      e sent.
Proof.
  revert e sent. induction s as [st a | st ex | st req k IH];
    intros e sent; cbn; [reflexivity | reflexivity |].
  destruct (respond req e) as [ans e']. apply IH.
Qed.

Lemma run_from_bind_ext {A B} (s : Step A) (f g : A -> Async B)
    (e : Engine) (sent : list Request) :
  (forall a st e' sent',
      run_from respond (f a st) e' sent'
      = run_from respond (g a st) e' sent') ->
  run_from respond (bind_step s f) e sent
  = run_from respond (bind_step s g) e sent.
Proof.
  intros Hfg. revert e sent.
  induction s as [st a | st ex | st req k IH];
    intros e sent; cbn; [apply Hfg | reflexivity |].
  destruct (respond req e) as [ans e']. apply IH.
Qed.

(** The loop of scanAll, which pushes each entry on the array that it
    returns, collects what draining the view collects. *)
Lemma for_await_push_drain {Y} (it : Gen Y) (acc : list Y)
    (e : Engine) (sent : list Request) :
  run_from respond
    (for_await it (fun y result => result ++ [y]) acc) e sent
  = run_from respond
      (bind_step (drain it) (fun ys => ret (acc ++ ys))) e sent.
Proof.
  revert acc e sent.
  induction it as [st | st ex | st req k IH | st y k IH];
    intros acc e sent; cbn.
  - now rewrite app_nil_r.
  - reflexivity.
  - destruct (respond req e) as [ans e']. apply IH.
  - rewrite IH, run_from_bind_assoc. apply run_from_bind_ext.
    intros ys st' e' sent'. cbn. now rewrite <- app_assoc.
Qed.

Lemma run_from_bind_ret {A} (s : Step A) (e : Engine)
    (sent : list Request) :
  run_from respond (bind_step s (fun a => ret a)) e sent
  = run_from respond s e sent.
Proof.
  revert e sent. induction s as [st a | st ex | st req k IH];
    intros e sent; cbn; [reflexivity | reflexivity |].
  destruct (respond req e) as [ans e']. apply IH.
Qed.
End Runs.

(** While the transaction stays open, the view yields the entries of the
    engine one after the other and the loop collects them in order. *)
Lemma for_await_yield_all (options : option ScanOptions) (b : bool)
    (items : list Entry) (st : State) (acc : list Entry) :
  closed (this st) = false ->
  for_await (yield_all (new_ScanResult options invoke read_this b) items st)
    (fun pair result => result ++ [pair]) acc
  = Return st (acc ++ items).
Proof.
  unfold closed. intros Hc. revert acc.
  induction items as [| item rest IH]; intros acc; cbn [yield_all for_await].
  - now rewrite app_nil_r.
  - unfold check_live. cbn. unfold throwIfClosed, closed. rewrite Hc. cbn.
    rewrite IH, <- app_assoc. reflexivity.
Qed.

(** C9.  scanAll(options) is scan(options) followed by the draining of
    its entries view: against every engine, from every state, the two
    leave the same state, the same result or failure, the same engine and
    the same requests.  On an open transaction that is one scan request
    with the options and the id, and the result is the list of the
    entries that the engine delivers, in the order of the engine; on a
    closed transaction it is TransactionClosedError, without a
    request. *)
Theorem C9_scanAll_is_scan_then_drain
    (Engine : Type) (respond : forall req, Engine -> Answer req * Engine)
    (options : option ScanOptions) (st : State) (e : Engine) :
  run respond (scanAll options) st e
    = run respond (scan_then_drain options) st e /\
  run respond (scanAll options) st e
    = if closed (this st)
      then mkRun st (Thrown TransactionClosedError) e []
      else
        match respond (Scan (id (this st)) (scan_opts options)) e with
        | (inr items, e') =>
            mkRun st (Returned items) e'
              [Scan (id (this st)) (scan_opts options)]
        | (inl f, e') =>
            mkRun st (Thrown (ChannelFailure f)) e'
              [Scan (id (this st)) (scan_opts options)]
        end.
Proof.
  split.
  - unfold run, scanAll, scan_then_drain, scan, bind, ret.
    cbn [bind_step]. rewrite for_await_push_drain.
    change (fun ys : list Entry => ret ([] ++ ys))
      with (fun ys : list Entry => @ret (list Entry) ys).
    apply run_from_bind_ret.
  - unfold run, closed. cbn. unfold throwIfClosed, closed.
    destruct (_closed (this st)) eqn:Hc; cbn; [reflexivity |].
    destruct (respond _ e) as [[f | items] e']; cbn; [reflexivity |].
    fold (yield_all (new_ScanResult options invoke read_this false)).
    now rewrite for_await_yield_all.
Qed.

(** C10.  scan(options), on a transaction whose closed flag is true,
    returns: the call is neither a throw nor an await, the state is
    unchanged and the channel receives nothing.  What it returns is the
    ScanResult over the options, the channel and the transaction.  The
    closed check is made when a view of the result is iterated: the
    entries view throws TransactionClosedError at its first advancement,
    in whatever closed state the iteration begins, and it is the first
    advancement on an open transaction that sends the scan request. *)
Theorem C10_scan_defers_closed_check
    (options : option ScanOptions) (st : State) :
  closed (this st) = true ->
  scan options st = Return st (new_ScanResult options invoke read_this false) /\
  (forall (Engine : Type)
          (respond : forall req, Engine -> Answer req * Engine)
          (e : Engine),
      run respond (scan options) st e
      = mkRun st (Returned (new_ScanResult options invoke read_this false))
          e []) /\
  entries (new_ScanResult options invoke read_this false) st
    = GThrow st TransactionClosedError /\
  (forall st',
      closed (this st') = true ->
      entries (new_ScanResult options invoke read_this false) st'
      = GThrow st' TransactionClosedError) /\
  (forall st',
      closed (this st') = false ->
      exists k,
        entries (new_ScanResult options invoke read_this false) st'
        = GAwait st' (Scan (id (this st')) (scan_opts options)) k).
Proof.
  unfold closed. intros Hst. split; [reflexivity |]. split; [reflexivity |].
  split; [cbn; unfold throwIfClosed, closed; rewrite Hst; reflexivity |].
  split; intros st' Hc; cbn; unfold throwIfClosed, closed;
    rewrite Hc; cbn; [reflexivity | eexists; reflexivity].
Qed.


(* ================================================================ *)
(** * Further properties of the transactions *)
(* ================================================================ *)

(** X1.  get, has, isEmpty, scan, put, del, createIndex and dropIndex
    assign nothing: in every stretch of their calls the transaction and
    the console are at the end what they were at the beginning. *)
Theorem reads_and_writes_assign_nothing (op : Operation) (st : State) :
  writes_nothing op = true ->
  Stretches eq st (perform op st).
Proof.
  intros Hw.
  pose proof (Stretches_reads_and_requests eq (@eq_refl State)
                (@eq_trans State) op st) as H.
  destruct op; try discriminate Hw; exact H.
Qed.

Lemma only_id_written_refl (st : State) : only_id_written st st.
Proof. repeat split. Qed.

Lemma only_id_written_trans (a b c : State) :
  only_id_written a b -> only_id_written b c -> only_id_written a c.
Proof.
  unfold only_id_written. intros (H1 & H2 & H3) (H4 & H5 & H6).
  repeat split; congruence.
Qed.

(** X2.  open assigns the id and nothing else: in every stretch of its
    call the closed flag, the name of the open request and the console are
    unchanged.  So open neither closes a transaction nor opens a closed
    one again. *)
Theorem open_writes_id_only (args : OpenTransactionRequest) (st : State) :
  Stretches only_id_written st (open args st).
Proof.
  apply (Stretches_open only_id_written only_id_written_refl
           only_id_written_trans).
  intros i st'. repeat split.
Qed.

Section Commit.
Variable R : State -> State -> Prop.
Hypothesis R_refl : forall st, R st st.
Hypothesis R_trans : forall a b c, R a b -> R b c -> R a c.
Hypothesis R_closed : forall st, R st (with_closed true st).

Lemma Stretches_commit (op : Operation) (st : State) :
  is_commit op = true -> Stretches R st (perform op st).
Proof.
  intros Hc. destruct op; try discriminate Hc; cbn [perform];
    apply (Stretches_discard R R_refl R_trans);
    (apply (Stretches_bind R R_trans); [constructor; apply R_closed |]);
    intros _ st1;
    (apply (Stretches_bind R R_trans);
     [apply (Stretches_read_this R R_refl) |]);
    intros tx st2;
    exact (Stretches_invoke R R_refl st2 (CommitTransaction _)).
Qed.
End Commit.

Lemma only_closed_written_refl (st : State) : only_closed_written st st.
Proof. repeat split. Qed.

Lemma only_closed_written_trans (a b c : State) :
  only_closed_written a b -> only_closed_written b c ->
  only_closed_written a c.
Proof.
  unfold only_closed_written. intros (H1 & H2 & H3) (H4 & H5 & H6).
  repeat split; congruence.
Qed.

(** X3.  commit, of a write and of an index transaction, assigns the
    closed flag and nothing else: in every stretch of its call the id, the
    name of the open request and the console are unchanged.  A failed
    commit writes nothing to the console. *)
Theorem commit_writes_closed_only (op : Operation) (st : State) :
  is_commit op = true ->
  Stretches only_closed_written st (perform op st).
Proof.
  apply (Stretches_commit only_closed_written only_closed_written_refl
           only_closed_written_trans).
  intros st'. repeat split.
Qed.

Lemma only_closed_written_and_logged_refl (st : State) :
  only_closed_written_and_logged st st.
Proof.
  repeat split. exists []. now rewrite app_nil_r.
Qed.

Lemma only_closed_written_and_logged_trans (a b c : State) :
  only_closed_written_and_logged a b ->
  only_closed_written_and_logged b c ->
  only_closed_written_and_logged a c.
Proof.
  unfold only_closed_written_and_logged.
  intros (H1 & H2 & l1 & H3) (H4 & H5 & l2 & H6).
  repeat split; try congruence.
  exists (l1 ++ l2). now rewrite H6, H3, app_assoc.
Qed.

(** X4.  close assigns the closed flag and writes to the console, and
    nothing else: in every stretch of its call the id and the name of the
    open request are unchanged, and the console keeps the lines that it
    had. *)
Theorem close_writes_closed_and_console_only (st : State) :
  Stretches only_closed_written_and_logged st (close st).
Proof.
  apply (Stretches_ending only_closed_written_and_logged
           only_closed_written_and_logged_refl
           only_closed_written_and_logged_trans call_close st eq_refl).
  - intros st'. repeat split. exists []. cbn. now rewrite app_nil_r.
  - intros msg ex st'. repeat split. now exists [(msg, ex)].
Qed.

Lemma AllRequests_bind_step {A B} (P : State -> Request -> Prop)
    (s : Step A) (f : A -> Async B) :
  AllRequests P s ->
  (forall a st, AllRequests P (f a st)) ->
  AllRequests P (bind_step s f).
Proof.
  intros H Hf. induction H as [st a | st ex | st req k Hp Hk IH]; cbn.
  - apply Hf.
  - constructor.
  - constructor; auto.
Qed.

Lemma GenAllRequests_gen_bind {A Y} (P : State -> Request -> Prop)
    (s : Step A) (k : A -> State -> Gen Y) :
  AllRequests P s ->
  (forall a st, GenAllRequests P (k a st)) ->
  GenAllRequests P (gen_bind s k).
Proof.
  intros H Hk. induction H as [st a | st ex | st req k' Hp Hk' IH]; cbn.
  - apply Hk.
  - constructor.
  - constructor; auto.
Qed.

Lemma AllRequests_for_await {Y L} (P : State -> Request -> Prop)
    (it : Gen Y) (body : Y -> L -> L) (acc : L) :
  GenAllRequests P it -> AllRequests P (for_await it body acc).
Proof.
  intros H. revert acc.
  induction H as [st | st ex | st req k Hp Hk IH | st y k Hk IH];
    intros acc; cbn.
  - constructor.
  - constructor.
  - constructor; auto.
  - apply IH.
Qed.

(** The check of a view reads the transaction and sends nothing. *)
Lemma AllRequests_check_live (P : State -> Request -> Prop)
    (options : option ScanOptions) (b : bool) (st : State) :
  AllRequests P (check_live (new_ScanResult options invoke read_this b) st).
Proof.
  cbn. unfold throwIfClosed, closed. destruct (_closed (this st));
    constructor.
Qed.

Lemma GenAllRequests_yield_all (P : State -> Request -> Prop)
    (options : option ScanOptions) (b : bool) (items : list Entry)
    (st : State) :
  GenAllRequests P
    (yield_all (new_ScanResult options invoke read_this b) items st).
Proof.
  revert st. induction items as [| item rest IH]; intros st;
    cbn [yield_all]; constructor.
  intros st'. apply GenAllRequests_gen_bind;
    [apply AllRequests_check_live | intros _ st2; apply IH].
Qed.

Lemma GenAllRequests_entries (options : option ScanOptions) (b : bool)
    (st : State) :
  GenAllRequests carries_id
    (entries (new_ScanResult options invoke read_this b) st).
Proof.
  unfold entries. apply GenAllRequests_gen_bind.
  - cbn. unfold throwIfClosed, closed. destruct (_closed (this st)); cbn;
      [constructor |].
    constructor; [reflexivity |]. intros [f | r] st'; constructor.
  - intros items st'. apply GenAllRequests_yield_all.
Qed.

(** X5.  Every request that an operation other than open sends carries
    the id that the transaction has at the moment of the request; this
    holds of the scan request of scanAll too. *)
Theorem requests_carry_the_id (op : Operation) (st : State) :
  is_open op = false ->
  AllRequests carries_id (perform op st).
Proof.
  intros Ho.
  destruct op; try discriminate Ho;
    try (cbn [perform]; unfold discard, scanAll, scan, bind, ret;
         cbn [bind_step];
         apply AllRequests_bind_step;
         [apply AllRequests_for_await, GenAllRequests_entries
         | intros; constructor]);
    cbn;
    unfold throwIfClosed, closed; try destruct (_closed (this st)); cbn;
    repeat first
      [ apply AllRequests_Return
      | apply AllRequests_Throw
      | apply AllRequests_Await; [reflexivity | intros [f | r] st'; cbn] ].
  unfold JSON_parse_value. destruct (negb (GetResponse.has r)); cbn;
    [constructor |]. destruct (JSON_parse _); cbn; constructor.
Qed.

Lemma at_most_one_request_run (Engine : Type)
    (respond : forall req, Engine -> Answer req * Engine)
    (A : Type) (s : Step A) (e : Engine) :
  AtMostOneRequest s ->
  List.length (requests (run_from respond s e [])) <= 1.
Proof.
  destruct s as [st a | st ex | st req k]; cbn; [lia | lia |].
  intros H. destruct (respond req e) as [ans e'].
  specialize (H ans st). destruct (k ans st); [cbn; lia | cbn; lia | contradiction].
Qed.

(** X6.  No operation retries: get, has, isEmpty, put, del, createIndex,
    dropIndex, open, close and commit await the channel once at most,
    whatever it answers, and scan never awaits it.  Against every engine a
    call sends one request at most. *)
Theorem one_request_at_most (op : Operation) (st : State) :
  iterates op = false ->
  AtMostOneRequest (perform op st) /\
  (forall (Engine : Type)
          (respond : forall req, Engine -> Answer req * Engine)
          (e : Engine),
      List.length (requests (run respond (perform op) st e)) <= 1) /\
  (forall options, op = call_scan options -> Finished (perform op st)).
Proof.
  intros Hi.
  assert (H : AtMostOneRequest (perform op st)).
  { destruct op; try discriminate Hi; cbn;
      unfold throwIfClosed, closed;
      try destruct (_closed (this st));
      try destruct (_openTransactionName (this st)); cbn;
      try exact I; intros [f | r] st'; cbn; try exact I.
    all: unfold JSON_parse_value; destruct (negb (GetResponse.has r)); cbn;
      [exact I |]; destruct (JSON_parse _); exact I. }
  split; [exact H |]. split.
  - intros Engine respond e. now apply at_most_one_request_run.
  - intros options ->. exact I.
Qed.

(** X7.  A failure of the channel is thrown as it is by every operation
    but close: when the engine fails the request of get, has, isEmpty,
    put, del, createIndex, dropIndex, open or commit with [f], the call
    throws [f] after that one request.  It has written nothing, except
    that commit has closed the transaction. *)
Theorem channel_failure_is_thrown
    (Engine : Type) (respond : forall req, Engine -> Answer req * Engine)
    (op : Operation) (st : State) (e e' : Engine)
    (req : Request) (f : Failure) :
  is_close op = false ->
  first_request op st = Some req ->
  respond req e = (inl f, e') ->
  run respond (perform op) st e
  = mkRun (after_failure op st) (Thrown (ChannelFailure f)) e' [req].
Proof.
  intros Hcl Hreq Hf. unfold run, after_failure.
  destruct op; try discriminate Hcl; try discriminate Hreq;
    cbn in Hreq |- *; unfold throwIfClosed, closed, id in *;
    try (destruct (_closed (this st)); [discriminate Hreq |]);
    try destruct (_openTransactionName (this st));
    injection Hreq as <-; cbn; rewrite Hf; reflexivity.
Qed.

(** X8.  The closed flag is checked at the beginning of a call only.
    Once get, has, isEmpty, put, del, createIndex or dropIndex has sent its
    request, the call does not throw TransactionClosedError any more, in
    whatever state it is resumed: a call in flight when the transaction
    is closed runs to its end. *)
Theorem no_closed_error_after_the_request (op : Operation) (st : State) :
  guarded op = true ->
  closed (this st) = false ->
  exists req k,
    perform op st = Await st req k /\
    forall ans st', ThrowsOnly not_closed_error (k ans st').
Proof.
  unfold closed. intros Hg Hc.
  destruct op; try discriminate Hg; cbn;
    unfold throwIfClosed, closed; rewrite Hc; cbn;
    eexists; eexists; (split; [reflexivity |]);
    intros [f | r] st'; cbn;
    try (constructor; discriminate); try constructor.
  unfold JSON_parse_value. destruct (negb (GetResponse.has r)); cbn;
    [constructor |]. destruct (JSON_parse _); cbn; constructor.
  discriminate.
Qed.

(** X9.  get is the only operation that decodes: has, isEmpty, scan, put,
    del, createIndex, dropIndex, open, close and commit never throw an
    error of JSON.parse, whatever the channel answers. *)
Theorem only_get_throws_parse_errors (op : Operation) (st : State) :
  is_get op = false ->
  iterates op = false ->
  ThrowsOnly not_parse_error (perform op st).
Proof.
  intros Hget Hi.
  destruct op; try discriminate Hget; try discriminate Hi; cbn;
    unfold throwIfClosed, closed;
    try destruct (_closed (this st));
    try destruct (_openTransactionName (this st)); cbn;
    repeat first
      [ apply ThrowsOnly_Return
      | apply ThrowsOnly_Throw; intros e; discriminate
      | apply ThrowsOnly_Await; intros [f | r] st'; cbn ].
Qed.

Lemma keyPrefix_or_empty_default (keyPrefix : option string) :
  keyPrefix_or_empty keyPrefix
  = match keyPrefix with
    | Some p => p
    | None => EmptyString
    end.
Proof.
  destruct keyPrefix as [p |]; [| reflexivity]. cbn.
  destruct (String.eqb_spec p EmptyString) as [-> |]; reflexivity.
Qed.

(** X10.  createIndex sends the key prefix of the definition as it is
    given, and the empty prefix when the definition has none: the default
    changes no prefix that is given, and a definition without a prefix
    sends the request of the definition with the empty one. *)
Theorem createIndex_sends_the_prefix
    (options : CreateIndexDefinition) (st : State) :
  closed (this st) = false ->
  first_request (call_createIndex options) st
    = Some (CreateIndex (id (this st)) (name options)
              (match keyPrefix options with
               | Some p => p
               | None => EmptyString
               end)
              (jsonPointer options)) /\
  (exists k,
      createIndex options st
      = Await st
          (CreateIndex (id (this st)) (name options)
             (match keyPrefix options with
              | Some p => p
              | None => EmptyString
              end)
             (jsonPointer options)) k) /\
  first_request
    (call_createIndex
       (mkCreateIndexDefinition (name options) None (jsonPointer options))) st
  = first_request
      (call_createIndex
         (mkCreateIndexDefinition (name options) (Some EmptyString)
            (jsonPointer options))) st.
Proof.
  unfold closed. intros Hc. split; [| split].
  - cbn. unfold closed. rewrite Hc, keyPrefix_or_empty_default. reflexivity.
  - cbn. unfold throwIfClosed, closed. rewrite Hc. cbn.
    rewrite keyPrefix_or_empty_default. eexists. reflexivity.
  - reflexivity.
Qed.

Lemma JSON_stringify_injective (v1 v2 : JSONValue) :
  round_trips v1 ->
  round_trips v2 ->
  JSON_stringify v1 = JSON_stringify v2 ->
  v1 = v2.
Proof.
  unfold round_trips. intros H1 H2 Heq. rewrite Heq in H1. congruence.
Qed.

(** X11.  put keeps values apart: on an open transaction put awaits the
    put request with the id, the key and the encoded value, and two puts
    of different representable values never await the same request. *)
Theorem put_requests_differ
    (st : State) (key1 key2 : string) (v1 v2 : JSONValue) :
  closed (this st) = false ->
  round_trips v1 ->
  round_trips v2 ->
  v1 <> v2 ->
  awaited (put key1 v1 st)
    = Some (Put (id (this st)) key1 (JSON_stringify v1)) /\
  awaited (put key1 v1 st) <> awaited (put key2 v2 st).
Proof.
  unfold closed. intros Hc H1 H2 Hne.
  assert (Hput : forall key v,
             awaited (put key v st)
             = Some (Put (id (this st)) key (JSON_stringify v))).
  { intros key v. cbn. unfold throwIfClosed, closed. rewrite Hc.
    reflexivity. }
  split; [apply Hput |]. rewrite !Hput. intros [= _ Hv].
  apply Hne. now apply JSON_stringify_injective.
Qed.

(** X12.  After a successful open the operations address the transaction
    by the id that the engine has assigned: open followed by get, has,
    isEmpty, put, del, createIndex or dropIndex sends the open request and
    then the request of the operation with that id, on a write and on an
    index transaction alike. *)
Theorem operations_use_the_assigned_id
    (Engine : Type) (respond : forall req, Engine -> Answer req * Engine)
    (op : Operation) (args : OpenTransactionRequest) (st : State)
    (e e1 : Engine) (r : OpenTransactionResponse.t) :
  guarded op = true ->
  closed (this st) = false ->
  (_openTransactionName (this st) = RPC_OpenTransaction ->
   respond (OpenTransaction args) e = (inr r, e1) ->
   exists req,
     request_of op (OpenTransactionResponse.transactionId r) = Some req /\
     requests (run respond (open args ;;; perform op) st e)
       = [OpenTransaction args; req]) /\
  (_openTransactionName (this st) = RPC_OpenIndexTransaction ->
   respond (OpenIndexTransaction args) e = (inr r, e1) ->
   exists req,
     request_of op (OpenTransactionResponse.transactionId r) = Some req /\
     requests (run respond (open args ;;; perform op) st e)
       = [OpenIndexTransaction args; req]).
Proof.
  unfold closed. intros Hg Hc.
  split; intros Hn Hr;
    (destruct op; try discriminate Hg;
     (eexists; split; [reflexivity |]);
     unfold run; cbn; rewrite Hn; cbn; rewrite Hr; cbn;
     unfold throwIfClosed, closed; cbn; rewrite Hc; cbn;
     match goal with
     | |- context [respond ?q e1] =>
         destruct (respond q e1) as [[f | a] e2]; cbn; try reflexivity
     end).
  all: unfold JSON_parse_value; destruct (negb (GetResponse.has a)); cbn;
    [reflexivity |]; destruct (JSON_parse _); reflexivity.
Qed.

(** X13.  What get, has, isEmpty, scan, put, del, createIndex and
    dropIndex do depends on the transaction through its id and its closed
    flag only: on two transactions with the same id and the same flag, be
    they of different classes, a call returns the same value or throws the
    same error, sends the same requests and leaves the engine the same. *)
Theorem operations_depend_on_id_and_closed_only
    (Engine : Type) (respond : forall req, Engine -> Answer req * Engine)
    (st1 st2 : State) (e : Engine) :
  id (this st1) = id (this st2) ->
  closed (this st1) = closed (this st2) ->
  (forall key,
      same_call (run respond (get key) st1 e)
                (run respond (get key) st2 e)) /\
  (forall key,
      same_call (run respond (has key) st1 e)
                (run respond (has key) st2 e)) /\
  same_call (run respond isEmpty st1 e) (run respond isEmpty st2 e) /\
  (forall options,
      same_call (run respond (scan options) st1 e)
                (run respond (scan options) st2 e)) /\
  (forall key value,
      same_call (run respond (put key value) st1 e)
                (run respond (put key value) st2 e)) /\
  (forall key,
      same_call (run respond (del key) st1 e)
                (run respond (del key) st2 e)) /\
  (forall options,
      same_call (run respond (createIndex options) st1 e)
                (run respond (createIndex options) st2 e)) /\
  (forall name,
      same_call (run respond (dropIndex name) st1 e)
                (run respond (dropIndex name) st2 e)).
Proof.
  intros Hid Hc.
  destruct st1 as [[i1 c1 n1] l1], st2 as [[i2 c2 n2] l2].
  cbn in Hid, Hc. subst i2 c2.
  unfold same_call, run.
  repeat match goal with
         | |- _ /\ _ => split
         | |- forall _, _ => intro
         end;
    cbn; unfold throwIfClosed, closed, id; cbn;
    try reflexivity;
    destruct c1; cbn; try reflexivity;
    match goal with
    | |- context [respond ?q e] =>
        destruct (respond q e) as [[f | a] e2]; cbn; try reflexivity
    end;
    unfold JSON_parse_value; destruct (negb (GetResponse.has a)); cbn;
    try reflexivity; destruct (JSON_parse _); reflexivity.
Qed.

End Transactions.

Arguments Return {JSONValue OpenTransactionRequest CommitTransactionResponse
  Failure A}.
Arguments Throw {JSONValue OpenTransactionRequest CommitTransactionResponse
  Failure A}.
Arguments Await {JSONValue OpenTransactionRequest CommitTransactionResponse
  Failure A}.
Arguments GThrow {JSONValue OpenTransactionRequest CommitTransactionResponse
  Failure Y}.
Arguments GAwait {JSONValue OpenTransactionRequest CommitTransactionResponse
  Failure Y}.
Arguments Returned {Failure A}.
Arguments Thrown {Failure A}.
Arguments TransactionClosedError {Failure}.
Arguments ChannelFailure {Failure}.
Arguments JSONParseError {Failure}.
Arguments mkRun {OpenTransactionRequest Failure Engine A}.
Arguments requests {OpenTransactionRequest Failure Engine A}.
Arguments outcome {OpenTransactionRequest Failure Engine A}.
Arguments final {OpenTransactionRequest Failure Engine A}.
Arguments this {Failure}.
Arguments console {Failure}.
Arguments run {JSONValue OpenTransactionRequest CommitTransactionResponse
  Failure Engine} respond {A}.
Arguments perform {JSONValue} JSON_stringify JSON_parse
  {OpenTransactionRequest CommitTransactionResponse Failure}.
Arguments bind {JSONValue OpenTransactionRequest CommitTransactionResponse
  Failure A B}.
Arguments get {JSONValue} JSON_parse
  {OpenTransactionRequest CommitTransactionResponse Failure}.
Arguments has {JSONValue OpenTransactionRequest CommitTransactionResponse
  Failure}.
Arguments isEmpty {JSONValue OpenTransactionRequest CommitTransactionResponse
  Failure}.
Arguments put {JSONValue} JSON_stringify
  {OpenTransactionRequest CommitTransactionResponse Failure}.
Arguments open {JSONValue OpenTransactionRequest CommitTransactionResponse
  Failure}.
Arguments close {JSONValue OpenTransactionRequest CommitTransactionResponse
  Failure}.
Arguments scan {JSONValue OpenTransactionRequest CommitTransactionResponse
  Failure}.
Arguments scanAll {JSONValue OpenTransactionRequest CommitTransactionResponse
  Failure}.
Arguments entries {JSONValue OpenTransactionRequest CommitTransactionResponse
  Failure}.
Arguments WriteTransactionImpl_commit
  {JSONValue OpenTransactionRequest CommitTransactionResponse Failure}.
Arguments memory_respond {JSONValue} JSON_parse
  {OpenTransactionRequest CommitTransactionResponse Failure}.
Arguments failing_respond
  {JSONValue OpenTransactionRequest CommitTransactionResponse Failure}.
Arguments guarded {JSONValue OpenTransactionRequest}.
Arguments call_get {JSONValue OpenTransactionRequest}.
Arguments round_trips {JSONValue}.
Arguments same_call {OpenTransactionRequest Failure Engine A}.
Arguments awaited {JSONValue OpenTransactionRequest CommitTransactionResponse
  Failure A}.
Arguments Get {OpenTransactionRequest}.
Arguments Has {OpenTransactionRequest}.
Arguments Scan {OpenTransactionRequest}.
Arguments Put {OpenTransactionRequest}.
Arguments CommitTransaction {OpenTransactionRequest}.
Arguments CloseTransaction {OpenTransactionRequest}.
Arguments OpenTransaction {OpenTransactionRequest}.
Arguments example_state {Failure}.
Arguments fresh_state {Failure}.

(* ================================================================== *)
(** * Properties of the encoding *)
(* ================================================================== *)

Lemma append_assoc (a b c : string) : ((a ++ b) ++ c = a ++ (b ++ c))%string.
Proof. induction a as [| x a IH]; cbn; [reflexivity | now rewrite IH]. Qed.

Lemma append_empty_r (a : string) : (a ++ EmptyString)%string = a.
Proof. induction a as [| x a IH]; cbn; [reflexivity | now rewrite IH]. Qed.

Lemma append_length (a b : string) :
  String.length (a ++ b) = String.length a + String.length b.
Proof. induction a as [| x a IH]; cbn; [reflexivity | now rewrite IH]. Qed.

(** One quoted code unit is read back as that code unit. *)
Lemma parse_chars_quote_char (c : ascii) (t : string) :
  parse_chars (quote_char c ++ t) = cons_char c (parse_chars t).
Proof.
  destruct c as [[|] [|] [|] [|] [|] [|] [|] [|]]; reflexivity.
Qed.

Lemma parse_chars_quote_chars (s rest : string) :
  parse_chars (quote_chars s ++ rest) = Ok (s, rest).
Proof.
  induction s as [| c s IH]; [reflexivity |].
  cbn [quote_chars]. rewrite append_assoc, parse_chars_quote_char, IH.
  reflexivity.
Qed.


Lemma nzhead_not_D0 (d d' : uint) : nzhead d <> D0 d'.
Proof. induction d; cbn; try discriminate; exact IHd. Qed.

Lemma unorm_canonical (d : uint) : canonical (unorm d) = true.
Proof.
  unfold unorm. destruct (nzhead d) eqn:E; try reflexivity.
  now apply nzhead_not_D0 in E.
Qed.

Lemma to_uint_canonical (n : N) : canonical (N.to_uint n) = true.
Proof.
  rewrite <- (DecimalN.Unsigned.of_to n) at 1.
  rewrite DecimalN.Unsigned.to_of. apply unorm_canonical.
Qed.

Lemma read_digits_string_of_uint (u : uint) (rest : string) :
  delimited rest = true ->
  read_digits (NilEmpty.string_of_uint u ++ rest) = (u, rest).
Proof.
  intros Hr. induction u; cbn [NilEmpty.string_of_uint append];
    try (cbn [read_digits]; rewrite IHu; reflexivity).
  cbn. destruct rest as [| c rest]; [reflexivity |].
  cbn in Hr. cbn [read_digits]. destruct (is_digit c); [discriminate | reflexivity].
Qed.

Lemma parse_int_digits (n : N) (rest : string) :
  delimited rest = true ->
  parse_int (NilZero.string_of_uint (N.to_uint n) ++ rest) = Ok (n, rest).
Proof.
  intros Hr. pose proof (to_uint_canonical n) as Hc.
  pose proof (DecimalN.Unsigned.of_to n) as Hn.
  destruct (N.to_uint n) as [| u | u | u | u | u | u | u | u | u | u] eqn:E;
    try discriminate Hc.
  1: { destruct u; try discriminate Hc. cbn in Hn. subst n. reflexivity. }
  all: match type of Hn with
       | N.of_uint ?d = _ =>
           pose proof (read_digits_string_of_uint d rest Hr) as Hd
       end;
       unfold NilZero.string_of_uint, parse_int;
       cbn [NilEmpty.string_of_uint append] in *;
       rewrite Hd, <- Hn; reflexivity.
Qed.

(** The first character of the digits of a number. *)
Lemma digits_head (n : N) :
  exists c s, NilZero.string_of_uint (N.to_uint n) = String c s /\
              is_digit c = true.
Proof.
  pose proof (to_uint_canonical n) as Hc.
  destruct (N.to_uint n); try discriminate Hc;
    (eexists; eexists; split; [reflexivity | reflexivity]).
Qed.

Lemma parse_number_toString (n : Z) (rest : string) :
  (Z.abs n <=? MAX_SAFE_INTEGER)%Z = true ->
  delimited rest = true ->
  parse_number (Number_toString n ++ rest) = Ok (JNumber n, rest).
Proof.
  intros Hn Hr. apply Z.leb_le in Hn.
  assert (Hstart : starts_fraction_or_exponent rest = false).
  { destruct rest as [| c rest]; [reflexivity |]. unfold delimited in Hr.
    apply andb_true_iff in Hr. destruct Hr as [_ Hr].
    now apply negb_true_iff in Hr. }
  unfold Number_toString, parse_number.
  destruct (n <? 0)%Z eqn:Hneg.
  - apply Z.ltb_lt in Hneg. cbn [append].
    change (Ascii.eqb "-" "-") with true. cbv iota.
    rewrite (parse_int_digits _ _ Hr). cbn [rbind]. rewrite Hstart.
    assert (Hz : Z.of_N (Z.abs_N n) = (- n)%Z) by lia.
    rewrite Hz.
    destruct (- n >? MAX_SAFE_INTEGER)%Z eqn:Hbig.
    { apply Z.gtb_lt in Hbig. lia. }
    destruct (Z.abs_N n =? 0)%N eqn:Hzero.
    { apply N.eqb_eq in Hzero. lia. }
    cbn. now rewrite Z.opp_involutive.
  - apply Z.ltb_ge in Hneg.
    destruct (digits_head (Z.abs_N n)) as (c & s & Hs & Hd).
    assert (Hminus : Ascii.eqb c "-" = false).
    { destruct (Ascii.eqb_spec c "-") as [-> |]; [discriminate Hd | reflexivity]. }
    pose proof (parse_int_digits (Z.abs_N n) rest Hr) as Hp.
    rewrite Hs in *. cbn [append] in *. rewrite Hminus, Hp. cbn [rbind].
    rewrite Hstart.
    assert (Hz : Z.of_N (Z.abs_N n) = n) by lia.
    rewrite Hz.
    destruct (n >? MAX_SAFE_INTEGER)%Z eqn:Hbig.
    { apply Z.gtb_lt in Hbig. lia. }
    reflexivity.
Qed.

Lemma own_property_order_prefix (l1 l2 : list string) :
  own_property_order (l1 ++ l2) = true -> own_property_order l1 = true.
Proof.
  induction l1 as [| k l1 IH]; [reflexivity |]. cbn.
  intros H. apply andb_true_iff in H. destruct H as [Hk Hrest].
  apply andb_true_iff. split; [| now apply IH].
  destruct (array_index k); rewrite forallb_app in Hk;
    apply andb_true_iff in Hk; apply Hk.
Qed.

(** A property that comes last in own-property order is new, and an array
    index among the keys is inserted at the end. *)
Lemma define_last (acc : list (string * JSONValue)) (k : string)
    (v : JSONValue) :
  own_property_order (map fst (acc ++ [(k, v)])) = true ->
  has_key k acc = false /\
  (forall i, array_index k = Some i ->
             insert_index i k v acc = acc ++ [(k, v)]).
Proof.
  induction acc as [| [k0 v0] acc IH]; [now split |].
  intros H.
  change (map fst (((k0, v0) :: acc) ++ [(k, v)]))
    with (k0 :: map fst (acc ++ [(k, v)])) in H.
  cbn [own_property_order] in H.
  apply andb_true_iff in H. destruct H as [Hk0 Hrest].
  destruct (IH Hrest) as [Hhas Hins]. clear IH.
  cbn [has_key existsb fst insert_index]. fold (has_key k acc).
  rewrite map_app in Hk0. cbn [map fst] in Hk0.
  destruct (array_index k0) as [j |] eqn:Hj;
    rewrite forallb_app in Hk0; cbn [forallb] in Hk0;
    apply andb_true_iff in Hk0; destruct Hk0 as [_ Hk];
    rewrite andb_true_r in Hk.
  - destruct (array_index k) as [i |] eqn:Hi.
    + apply N.ltb_lt in Hk. split.
      * destruct (String.eqb_spec k0 k) as [-> |]; [| exact Hhas].
        rewrite Hj in Hi. injection Hi as ->. lia.
      * intros i' [= <-]. apply N.ltb_lt in Hk. rewrite Hk.
        now rewrite Hins.
    + split; [| discriminate].
      destruct (String.eqb_spec k0 k) as [-> |]; [| exact Hhas].
      congruence.
  - destruct (array_index k) as [i |] eqn:Hi; [discriminate |].
    split; [| discriminate].
    apply negb_true_iff in Hk. rewrite String.eqb_sym, Hk. exact Hhas.
Qed.

Lemma define_property_last (acc : list (string * JSONValue))
    (kv : string * JSONValue) :
  own_property_order (map fst (acc ++ [kv])) = true ->
  define_property acc kv = acc ++ [kv].
Proof.
  destruct kv as [k v]. intros H.
  destruct (define_last acc k v H) as [Hhas Hins].
  unfold define_property. rewrite Hhas.
  destruct (array_index k) as [i |]; [now apply Hins | reflexivity].
Qed.

Lemma fold_define_property (m acc : list (string * JSONValue)) :
  own_property_order (map fst (acc ++ m)) = true ->
  fold_left define_property m acc = acc ++ m.
Proof.
  revert acc. induction m as [| kv m IH]; intros acc H; cbn [fold_left].
  - now rewrite app_nil_r.
  - assert (Hsplit : acc ++ kv :: m = (acc ++ [kv]) ++ m)
      by now rewrite <- app_assoc.
    rewrite Hsplit in H. rewrite define_property_last.
    + rewrite IH by exact H. now rewrite <- app_assoc.
    + rewrite map_app in H. apply own_property_order_prefix in H. exact H.
Qed.

Lemma stringify_begins_value (v : JSONValue) (rest : string) :
  begins_value (JSON_stringify v ++ rest) = true.
Proof.
  destruct v as [| [|] | n | s | l | m]; try reflexivity.
  cbn [JSON_stringify]. unfold Number_toString.
  destruct (digits_head (Z.abs_N n)) as (c & s & Hs & Hd). rewrite Hs.
  destruct (n <? 0)%Z; [reflexivity |]. cbn [append begins_value].
  destruct c as [[|] [|] [|] [|] [|] [|] [|] [|]]; try discriminate Hd;
    reflexivity.
Qed.

Lemma skip_ws_begins_value (s : string) :
  begins_value s = true -> skip_ws s = s.
Proof.
  destruct s as [| c s]; [reflexivity |]. cbn.
  destruct (is_ws c); [discriminate | reflexivity].
Qed.

Section Lists.
Variable pv : string -> Result (JSONValue * string).

Lemma parse_elements_stringify (l : list JSONValue) (fuel : nat)
    (rest : string) :
  l <> [] ->
  Forall (reads_back pv) l ->
  List.length l <= fuel ->
  parse_elements pv fuel
    (concat "," (map JSON_stringify l) ++ String "]" rest)
  = Ok (l, rest).
Proof.
  revert fuel. induction l as [| x l IH]; intros fuel Hne Hall Hfuel;
    [congruence |].
  inversion Hall as [| x' l' Hx Hl]; subst.
  destruct fuel as [| fuel]; [cbn in Hfuel; lia |].
  cbn [parse_elements map concat]. destruct l as [| y l].
  - cbn [map]. rewrite Hx by reflexivity. reflexivity.
  - change (map JSON_stringify (y :: l))
      with (JSON_stringify y :: map JSON_stringify l).
    cbv iota. rewrite !append_assoc. rewrite Hx by reflexivity.
    cbn [rbind skip_ws append]. change (is_ws ",") with false. cbv iota.
    change (Ascii.eqb "," ",") with true. cbv iota.
    change (JSON_stringify y :: map JSON_stringify l)
      with (map JSON_stringify (y :: l)).
    rewrite IH; [reflexivity | discriminate | exact Hl |].
    cbn [List.length] in *. lia.
Qed.

Lemma parse_members_stringify (m : list (string * JSONValue))
    (fuel : nat) (rest : string) :
  m <> [] ->
  Forall (fun kv => reads_back pv (snd kv)) m ->
  List.length m <= fuel ->
  parse_members pv fuel
    (concat "," (map (stringify_member JSON_stringify) m)
       ++ String "}" rest)
  = Ok (m, rest).
Proof.
  revert fuel. induction m as [| [k v] m IH]; intros fuel Hne Hall Hfuel;
    [congruence |].
  inversion Hall as [| x' l' Hx Hl]; subst. cbn [snd] in Hx.
  destruct fuel as [| fuel]; [cbn in Hfuel; lia |].
  cbn [parse_members map concat]. destruct m as [| y m].
  - cbn [map]. unfold stringify_member, QuoteJSONString. cbn [fst snd].
    cbn [append skip_ws]. change (is_ws dquote) with false. cbv iota.
    change (Ascii.eqb dquote dquote) with true. cbv iota.
    rewrite append_assoc, parse_chars_quote_chars.
    cbn [rbind append skip_ws]. change (is_ws ":") with false. cbv iota.
    change (Ascii.eqb ":" ":") with true. cbv iota.
    rewrite Hx by reflexivity. reflexivity.
  - change (map (stringify_member JSON_stringify) (y :: m))
      with (stringify_member JSON_stringify y
              :: map (stringify_member JSON_stringify) m).
    cbv iota. unfold stringify_member at 1, QuoteJSONString.
    cbn [fst snd]. cbn [append skip_ws].
    change (is_ws dquote) with false. cbv iota.
    change (Ascii.eqb dquote dquote) with true. cbv iota.
    rewrite !append_assoc, parse_chars_quote_chars.
    cbn [rbind append skip_ws]. change (is_ws ":") with false. cbv iota.
    change (Ascii.eqb ":" ":") with true. cbv iota.
    rewrite ?append_assoc. rewrite Hx by reflexivity.
    cbn [rbind skip_ws append]. change (is_ws ",") with false. cbv iota.
    change (Ascii.eqb "," ",") with true. cbv iota.
    change (stringify_member JSON_stringify y
              :: map (stringify_member JSON_stringify) m)
      with (map (stringify_member JSON_stringify) (y :: m)).
    rewrite IH; [reflexivity | discriminate | exact Hl |].
    cbn [List.length] in *. lia.
Qed.
End Lists.

Lemma need_elements (l : list JSONValue) (fuel : nat) :
  fold_right (fun x n => Nat.max (need x) n) (List.length l) l <= fuel ->
  List.length l <= fuel /\ Forall (fun x => need x <= fuel) l.
Proof.
  assert (H : forall n,
             fold_right (fun x n => Nat.max (need x) n) n l <= fuel ->
             n <= fuel /\ Forall (fun x => need x <= fuel) l).
  { induction l as [| x l IH]; intros n Hn; cbn in Hn; [now split |].
    destruct (IH n) as [H1 H2]; [lia |]. split; [exact H1 |].
    constructor; [lia | exact H2]. }
  apply H.
Qed.

Lemma need_members (m : list (string * JSONValue)) (fuel : nat) :
  fold_right (fun kv n => Nat.max (need (snd kv)) n) (List.length m) m
    <= fuel ->
  List.length m <= fuel /\ Forall (fun kv => need (snd kv) <= fuel) m.
Proof.
  assert (H : forall n,
             fold_right (fun kv n => Nat.max (need (snd kv)) n) n m <= fuel ->
             n <= fuel /\ Forall (fun kv => need (snd kv) <= fuel) m).
  { induction m as [| x m IH]; intros n Hn; cbn in Hn; [now split |].
    destruct (IH n) as [H1 H2]; [lia |]. split; [exact H1 |].
    constructor; [lia | exact H2]. }
  apply H.
Qed.

(** With fuel for its depth and width, the parser reads back a
    representable value from its text, and stops at what follows. *)
Lemma parse_value_stringify (v : JSONValue) :
  representable v = true ->
  forall fuel rest,
    need v <= fuel ->
    delimited rest = true ->
    parse_value fuel (JSON_stringify v ++ rest) = Ok (v, rest).
Proof.
  induction v as [| b | n | s | l IH | m IH] using JSONValue_ind;
    intros Hrep fuel rest Hfuel Hrest;
    (destruct fuel as [| fuel]; [cbn in Hfuel; lia |]).
  - reflexivity.
  - destruct b; reflexivity.
  - cbn [JSON_stringify representable] in *.
    pose proof (stringify_begins_value (JNumber n) rest) as Hb.
    cbn [JSON_stringify] in Hb.
    pose proof (parse_number_toString n rest Hrep Hrest) as Hp.
    cbn [parse_value]. rewrite (skip_ws_begins_value _ Hb).
    unfold Number_toString in *.
    destruct (digits_head (Z.abs_N n)) as (c & t & Ht & Hd).
    rewrite Ht in *. destruct (n <? 0)%Z.
    + cbn [append] in *. exact Hp.
    + cbn [append] in *.
      destruct c as [[|] [|] [|] [|] [|] [|] [|] [|]]; try discriminate Hd;
        exact Hp.
  - cbn. now rewrite parse_chars_quote_chars.
  - cbn [JSON_stringify representable need] in *.
    apply le_S_n in Hfuel. apply need_elements in Hfuel.
    destruct Hfuel as [Hlen Hneed].
    destruct l as [| x l]; [reflexivity |].
    cbn [append parse_value skip_ws]. change (is_ws "[") with false.
    cbv iota. rewrite append_assoc.
    change ("]" ++ rest)%string with (String "]" rest).
    assert (Hb : begins_value
                   (concat "," (map JSON_stringify (x :: l))
                      ++ String "]" rest) = true).
    { destruct l; cbn [map concat]; [apply stringify_begins_value |].
      rewrite append_assoc. apply stringify_begins_value. }
    rewrite (skip_ws_begins_value _ Hb).
    destruct (concat "," (map JSON_stringify (x :: l))
                ++ String "]" rest)%string
      as [| c t] eqn:Ht; [discriminate Hb |].
    cbn [begins_value] in Hb.
    destruct (Ascii.eqb c "]"); [rewrite andb_false_r in Hb; discriminate |].
    cbn. rewrite <- Ht.
    rewrite parse_elements_stringify; [reflexivity | discriminate | | exact Hlen].
    rewrite Forall_forall in IH, Hneed |- *. intros y Hy r Hr.
    apply IH; auto. rewrite forallb_forall in Hrep. now apply Hrep.
  - cbn [JSON_stringify representable need] in *.
    apply andb_true_iff in Hrep. destruct Hrep as [Horder Hrep].
    apply le_S_n in Hfuel. apply need_members in Hfuel.
    destruct Hfuel as [Hlen Hneed].
    destruct m as [| x m]; [reflexivity |].
    cbn [append parse_value skip_ws]. change (is_ws "{") with false.
    cbv iota. rewrite append_assoc.
    change ("}" ++ rest)%string with (String "}" rest).
    assert (Hb : begins_value
                   (concat "," (map (stringify_member JSON_stringify) (x :: m))
                      ++ String "}" rest) = true).
    { cbn [map concat]. destruct m; reflexivity. }
    rewrite (skip_ws_begins_value _ Hb).
    destruct (concat "," (map (stringify_member JSON_stringify) (x :: m))
                ++ String "}" rest)%string
      as [| c t] eqn:Ht; [discriminate Hb |].
    cbn [begins_value] in Hb.
    destruct (Ascii.eqb c "}"); [rewrite andb_false_r in Hb; discriminate |].
    cbn. rewrite <- Ht.
    rewrite parse_members_stringify; [| discriminate | | exact Hlen].
    + cbn [rbind]. rewrite fold_define_property by exact Horder.
      reflexivity.
    + rewrite Forall_forall in IH, Hneed |- *. intros y Hy r Hr.
      apply IH; auto. rewrite forallb_forall in Hrep. now apply Hrep.
Qed.

Lemma concat_length_elem (sep s : string) (ss : list string) :
  In s ss -> String.length s <= String.length (concat sep ss).
Proof.
  induction ss as [| t ss IH]; [contradiction |]. intros [-> | Hin].
  - cbn [concat]. destruct ss; [lia |]. rewrite append_length. lia.
  - specialize (IH Hin). cbn [concat]. destruct ss; [contradiction |].
    rewrite !append_length. lia.
Qed.

Lemma concat_length_count (sep : string) (ss : list string) :
  Forall (fun s => 1 <= String.length s) ss ->
  List.length ss <= String.length (concat sep ss).
Proof.
  induction ss as [| t ss IH]; intros H; [cbn; lia |].
  inversion H as [| t' ss' Ht Hss]; subst. specialize (IH Hss).
  cbn [concat List.length]. destruct ss; [cbn [List.length]; lia |].
  rewrite !append_length. lia.
Qed.

Lemma fold_max_bound {A} (f : A -> nat) (l : list A) (n bound : nat) :
  n <= bound ->
  Forall (fun x => f x <= bound) l ->
  fold_right (fun x n => Nat.max (f x) n) n l <= bound.
Proof.
  intros Hn H. induction H as [| x l Hx Hl IH]; cbn; lia.
Qed.

Lemma need_positive (v : JSONValue) : 1 <= need v.
Proof. destruct v; cbn; lia. Qed.

(** The fuel that a text provides is enough for the value that it
    denotes. *)
Lemma need_stringify (v : JSONValue) :
  need v <= String.length (JSON_stringify v).
Proof.
  induction v as [| b | n | s | l IH | m IH] using JSONValue_ind.
  - cbn. lia.
  - destruct b; cbn; lia.
  - cbn [need JSON_stringify]. unfold Number_toString.
    destruct (digits_head (Z.abs_N n)) as (c & t & Ht & _). rewrite Ht.
    destruct (n <? 0)%Z; cbn; lia.
  - cbn. lia.
  - cbn [need JSON_stringify String.length]. rewrite append_length.
    cbn [String.length]. apply le_n_S.
    assert (Hall : Forall (fun x => need x
                     <= String.length (concat "," (map JSON_stringify l))) l).
    { rewrite Forall_forall in IH |- *. intros x Hx.
      etransitivity; [apply IH, Hx |].
      apply concat_length_elem, in_map, Hx. }
    apply fold_max_bound.
    + etransitivity; [| apply Nat.le_add_r]. rewrite <- (length_map JSON_stringify).
      apply concat_length_count. rewrite Forall_forall in IH |- *.
      intros s Hs. apply in_map_iff in Hs. destruct Hs as (x & <- & Hx).
      etransitivity; [apply need_positive | apply IH, Hx].
    + eapply Forall_impl; [| exact Hall]. cbn. intros; lia.
  - cbn [need JSON_stringify String.length]. rewrite append_length.
    cbn [String.length]. apply le_n_S.
    assert (Hmem : forall kv,
               need (snd kv) <= String.length (JSON_stringify (snd kv)) ->
               need (snd kv)
               <= String.length (stringify_member JSON_stringify kv)).
    { intros kv H. unfold stringify_member, QuoteJSONString.
      cbn [append String.length]. rewrite append_length.
      cbn [String.length]. lia. }
    assert (Hall : Forall (fun kv => need (snd kv)
                     <= String.length
                          (concat "," (map (stringify_member JSON_stringify) m)))
                     m).
    { rewrite Forall_forall in IH |- *. intros x Hx.
      etransitivity; [apply Hmem, IH, Hx |].
      apply concat_length_elem, in_map, Hx. }
    apply fold_max_bound.
    + etransitivity; [| apply Nat.le_add_r].
      rewrite <- (length_map (stringify_member JSON_stringify)).
      apply concat_length_count. rewrite Forall_forall in IH |- *.
      intros s Hs. apply in_map_iff in Hs. destruct Hs as (x & <- & Hx).
      etransitivity; [apply need_positive | apply Hmem, IH, Hx].
    + eapply Forall_impl; [| exact Hall]. cbn. intros; lia.
Qed.

(** The round trip of this encoding: JSON.parse(JSON.stringify(v)) is v on
    its representable values. *)
Lemma JSON_parse_stringify (v : JSONValue) :
  representable v = true ->
  JSON_parse (JSON_stringify v) = Ok v.
Proof.
  intros Hrep.
  pose proof (parse_value_stringify v Hrep
                (S (String.length (JSON_stringify v))) EmptyString) as H.
  rewrite append_empty_r in H. unfold JSON_parse. rewrite H.
  - reflexivity.
  - pose proof (need_stringify v). lia.
  - reflexivity.
Qed.

(** Hence the representable values of this encoding are representable in
    the sense of the transactions. *)
Lemma representable_round_trips (v : JSONValue) :
  representable v = true -> round_trips JSON_stringify JSON_parse v.
Proof. exact (JSON_parse_stringify v). Qed.

(** ** The fuel of the parser is enough for every text *)

Lemma skip_ws_length (s : string) :
  String.length (skip_ws s) <= String.length s.
Proof.
  induction s as [| c s IH]; cbn; [lia |]. destruct (is_ws c); cbn; lia.
Qed.

Lemma strip_prefix_length (p s r : string) :
  strip_prefix p s = Some r ->
  String.length r + String.length p = String.length s.
Proof.
  revert s. induction p as [| a p IH]; intros s H; cbn in H.
  - injection H as ->. cbn. lia.
  - destruct s as [| b s]; [discriminate |].
    destruct (Ascii.eqb a b); [| discriminate].
    apply IH in H. cbn. lia.
Qed.

Lemma parse_chars_length (s str r : string) :
  parse_chars s = Ok (str, r) -> String.length r < String.length s.
Proof.
  assert (Hle : String.length s <= String.length s) by lia.
  revert Hle. generalize (String.length s) at 2. intros n.
  revert s str r. induction n as [| n IH]; intros s str r Hle H.
  - destruct s; [discriminate H | cbn in Hle; lia].
  - destruct s as [| c s]; [discriminate H |]. cbn [parse_chars] in H.
    cbn [String.length] in *.
    assert (Hcons : forall c' t str' r',
               String.length t <= n ->
               cons_char c' (parse_chars t) = Ok (str', r') ->
               String.length r' < S (String.length t)).
    { intros c' t str' r' Ht Hc. unfold cons_char, rbind in Hc.
      destruct (parse_chars t) as [[a b] |] eqn:E; [| discriminate].
      injection Hc as _ Hr. subst r'. apply IH in E; [lia | exact Ht]. }
    destruct (Ascii.eqb c dquote).
    { injection H as _ <-. lia. }
    destruct (Ascii.eqb c backslash).
    { destruct s as [| e s]; [discriminate |]. cbn [String.length] in *.
      destruct (Ascii.eqb e "u").
      - destruct s as [| h1 [| h2 [| h3 [| h4 s]]]]; try discriminate.
        cbn [String.length] in *.
        destruct (hex4 h1 h2 h3 h4); [| discriminate].
        destruct (_ <? 256)%N; [| discriminate].
        apply Hcons in H; lia.
      - destruct (unescape e); [| discriminate].
        apply Hcons in H; lia. }
    destruct (code c <? 32)%N; [discriminate |].
    apply Hcons in H; lia.
Qed.

Lemma parse_chars_fuel (s : string) : parse_chars s <> Err OutOfFuel.
Proof.
  assert (Hle : String.length s <= String.length s) by lia.
  revert Hle. generalize (String.length s) at 2. intros n.
  revert s. induction n as [| n IH]; intros s Hle.
  - destruct s; [discriminate | cbn in Hle; lia].
  - destruct s as [| c s]; [discriminate |]. cbn [parse_chars].
    cbn [String.length] in *.
    assert (Hcons : forall c' t,
               String.length t <= n ->
               cons_char c' (parse_chars t) <> Err OutOfFuel).
    { intros c' t Ht. unfold cons_char, rbind.
      specialize (IH t Ht).
      destruct (parse_chars t) as [[a b] | e]; [discriminate | congruence]. }
    destruct (Ascii.eqb c dquote); [discriminate |].
    destruct (Ascii.eqb c backslash).
    { destruct s as [| e s]; [discriminate |]. cbn [String.length] in *.
      destruct (Ascii.eqb e "u").
      - destruct s as [| h1 [| h2 [| h3 [| h4 s]]]]; try discriminate.
        cbn [String.length] in *.
        destruct (hex4 h1 h2 h3 h4); [| discriminate].
        destruct (_ <? 256)%N; [| discriminate].
        apply Hcons; lia.
      - destruct (unescape e); [| discriminate].
        apply Hcons; lia. }
    destruct (code c <? 32)%N; [discriminate |].
    apply Hcons; lia.
Qed.

Lemma read_digits_length (s : string) :
  String.length (snd (read_digits s)) <= String.length s.
Proof.
  induction s as [| c s IH]; cbn; [lia |].
  destruct (is_digit c); [| cbn; lia].
  destruct (read_digits s); cbn in *; lia.
Qed.

Lemma parse_number_length (s : string) (v : JSONValue) (r : string) :
  parse_number s = Ok (v, r) -> String.length r < String.length s.
Proof.
  assert (Hint : forall t n r', parse_int t = Ok (n, r') ->
                                String.length r' < String.length t).
  { intros t n r' H. destruct t as [| c t]; [discriminate |].
    unfold parse_int in H. destruct (Ascii.eqb c "0").
    - injection H as _ <-. cbn. lia.
    - destruct (is_digit c) eqn:Hc; [| discriminate].
      pose proof (read_digits_length t) as Hl.
      cbn [read_digits] in H. rewrite Hc in H.
      destruct (read_digits t) as [u r0]. injection H as _ <-.
      cbn in *. lia. }
  unfold parse_number. intros H.
  destruct s as [| c s]; [discriminate H |].
  destruct (Ascii.eqb c "-");
    (destruct (parse_int _) as [[n r'] |] eqn:E; [| discriminate H];
     apply Hint in E; cbn [rbind] in H;
     destruct (starts_fraction_or_exponent r'); [discriminate |];
     destruct (_ >? _)%Z; [discriminate |];
     destruct (_ && _); [discriminate |];
     injection H as _ <-; cbn [String.length] in *; lia).
Qed.

Section Fuel.
Variable pv : string -> Result (JSONValue * string).
Variable bound : nat.
Hypothesis pv_length :
  forall s v r, pv s = Ok (v, r) -> String.length r < String.length s.
Hypothesis pv_fuel :
  forall s, String.length s < bound -> pv s <> Err OutOfFuel.

Lemma parse_elements_length (fuel : nat) (s : string)
    (l : list JSONValue) (r : string) :
  parse_elements pv fuel s = Ok (l, r) ->
  String.length r < String.length s.
Proof.
  revert s l r. induction fuel as [| fuel IH]; intros s l r H;
    [discriminate |].
  cbn [parse_elements] in H.
  destruct (pv s) as [[v s1] |] eqn:E; [| discriminate]. cbn [rbind] in H.
  apply pv_length in E. pose proof (skip_ws_length s1) as Hs.
  destruct (skip_ws s1) as [| c s2]; [discriminate |].
  cbn [String.length] in Hs. destruct (Ascii.eqb c ",").
  - destruct (parse_elements pv fuel s2) as [[vs r'] |] eqn:E2;
      [| discriminate].
    injection H as _ <-. apply IH in E2. lia.
  - destruct (Ascii.eqb c "]"); [| discriminate].
    injection H as _ <-. lia.
Qed.

Lemma parse_elements_fuel (fuel : nat) (s : string) :
  String.length s < fuel -> String.length s < bound ->
  parse_elements pv fuel s <> Err OutOfFuel.
Proof.
  revert s. induction fuel as [| fuel IH]; intros s Hf Hb; [lia |].
  cbn [parse_elements].
  destruct (pv s) as [[v s1] | e] eqn:E; cbn [rbind].
  - apply pv_length in E. pose proof (skip_ws_length s1) as Hs.
    destruct (skip_ws s1) as [| c s2]; [discriminate |].
    cbn [String.length] in Hs. destruct (Ascii.eqb c ",").
    + specialize (IH s2). destruct (parse_elements pv fuel s2) as [[vs r'] |];
        [discriminate |]. cbn [rbind]. apply IH; lia.
    + destruct (Ascii.eqb c "]"); discriminate.
  - intros [= ->]. now apply (pv_fuel s).
Qed.

Lemma parse_members_length (fuel : nat) (s : string)
    (m : list (string * JSONValue)) (r : string) :
  parse_members pv fuel s = Ok (m, r) ->
  String.length r < String.length s.
Proof.
  revert s m r. induction fuel as [| fuel IH]; intros s m r H;
    [discriminate |].
  cbn [parse_members] in H. pose proof (skip_ws_length s) as H0.
  destruct (skip_ws s) as [| q s1]; [discriminate |].
  cbn [String.length] in H0.
  destruct (Ascii.eqb q dquote); [| discriminate].
  destruct (parse_chars s1) as [[k s2] |] eqn:Ek; [| discriminate].
  cbn [rbind] in H. apply parse_chars_length in Ek.
  pose proof (skip_ws_length s2) as H2.
  destruct (skip_ws s2) as [| c s3]; [discriminate |].
  cbn [String.length] in H2.
  destruct (Ascii.eqb c ":"); [| discriminate].
  destruct (pv s3) as [[v s4] |] eqn:E; [| discriminate]. cbn [rbind] in H.
  apply pv_length in E. pose proof (skip_ws_length s4) as H4.
  destruct (skip_ws s4) as [| d s5]; [discriminate |].
  cbn [String.length] in H4. destruct (Ascii.eqb d ",").
  - destruct (parse_members pv fuel s5) as [[ms r'] |] eqn:E2;
      [| discriminate].
    injection H as _ <-. apply IH in E2. lia.
  - destruct (Ascii.eqb d "}"); [| discriminate].
    injection H as _ <-. lia.
Qed.

Lemma parse_members_fuel (fuel : nat) (s : string) :
  String.length s < fuel -> String.length s < bound ->
  parse_members pv fuel s <> Err OutOfFuel.
Proof.
  revert s. induction fuel as [| fuel IH]; intros s Hf Hb; [lia |].
  cbn [parse_members]. pose proof (skip_ws_length s) as H0.
  destruct (skip_ws s) as [| q s1]; [discriminate |].
  cbn [String.length] in H0.
  destruct (Ascii.eqb q dquote); [| discriminate].
  destruct (parse_chars s1) as [[k s2] | e] eqn:Ek; cbn [rbind].
  2: { intros [= ->]. now apply parse_chars_fuel in Ek. }
  apply parse_chars_length in Ek.
  pose proof (skip_ws_length s2) as H2.
  destruct (skip_ws s2) as [| c s3]; [discriminate |].
  cbn [String.length] in H2.
  destruct (Ascii.eqb c ":"); [| discriminate].
  destruct (pv s3) as [[v s4] | e] eqn:E; cbn [rbind].
  - apply pv_length in E. pose proof (skip_ws_length s4) as H4.
    destruct (skip_ws s4) as [| d s5]; [discriminate |].
    cbn [String.length] in H4. destruct (Ascii.eqb d ",").
    + specialize (IH s5). destruct (parse_members pv fuel s5) as [[ms r'] |];
        [discriminate |]. cbn [rbind]. apply IH; lia.
    + destruct (Ascii.eqb d "}"); discriminate.
  - intros [= ->]. apply (pv_fuel s3); [lia | exact E].
Qed.
End Fuel.

Lemma parse_value_length (fuel : nat) (s : string) (v : JSONValue)
    (r : string) :
  parse_value fuel s = Ok (v, r) -> String.length r < String.length s.
Proof.
  revert s v r. induction fuel as [| fuel IH]; intros s v r H;
    [discriminate |].
  cbn [parse_value] in H. pose proof (skip_ws_length s) as H0.
  destruct (skip_ws s) as [| c s']; [discriminate |].
  cbn [String.length] in H0.
  assert (Hlit : forall lit w, parse_literal lit w (String c s') = Ok (v, r) ->
                               1 <= String.length lit ->
                               String.length r < String.length s).
  { intros lit w Hl Hlen. unfold parse_literal in Hl.
    destruct (strip_prefix lit (String c s')) as [r' |] eqn:E; [| discriminate].
    injection Hl as _ <-. apply strip_prefix_length in E.
    cbn [String.length] in E. lia. }
  destruct (Ascii.eqb c "n"); [apply Hlit in H; [exact H | cbn; lia] |].
  destruct (Ascii.eqb c "t"); [apply Hlit in H; [exact H | cbn; lia] |].
  destruct (Ascii.eqb c "f"); [apply Hlit in H; [exact H | cbn; lia] |].
  destruct (Ascii.eqb c dquote).
  { destruct (parse_chars s') as [[str r'] |] eqn:E; [| discriminate].
    injection H as _ <-. apply parse_chars_length in E. lia. }
  destruct (Ascii.eqb c "[").
  { pose proof (skip_ws_length s') as H1.
    destruct (skip_ws s') as [| c' rest]; [discriminate |].
    cbn [String.length] in H1. destruct (Ascii.eqb c' "]").
    - injection H as _ <-. lia.
    - destruct (parse_elements (parse_value fuel) fuel s') as [[vs r'] |] eqn:E;
        [| discriminate].
      injection H as _ <-. apply parse_elements_length in E; [lia | exact IH]. }
  destruct (Ascii.eqb c "{").
  { pose proof (skip_ws_length s') as H1.
    destruct (skip_ws s') as [| c' rest]; [discriminate |].
    cbn [String.length] in H1. destruct (Ascii.eqb c' "}").
    - injection H as _ <-. lia.
    - destruct (parse_members (parse_value fuel) fuel s') as [[ms r'] |] eqn:E;
        [| discriminate].
      injection H as _ <-. apply parse_members_length in E; [lia | exact IH]. }
  destruct (_ || _); [| discriminate].
  apply parse_number_length in H. cbn [String.length] in H. lia.
Qed.

Lemma parse_number_fuel (s : string) : parse_number s <> Err OutOfFuel.
Proof.
  assert (Hint : forall t, parse_int t <> Err OutOfFuel).
  { intros [| c t]; [discriminate |]. unfold parse_int.
    destruct (Ascii.eqb c "0"); [discriminate |].
    destruct (is_digit c); [| discriminate].
    destruct (read_digits (String c t)); discriminate. }
  unfold parse_number.
  destruct s as [| c s]; [discriminate |].
  destruct (Ascii.eqb c "-");
    (match goal with |- context [parse_int ?t] =>
       specialize (Hint t); destruct (parse_int t) as [[n r'] | e]
     end; [| cbn; congruence]; cbn [rbind];
     destruct (starts_fraction_or_exponent r'); [discriminate |];
     destruct (_ >? _)%Z; [discriminate |];
     destruct (_ && _); discriminate).
Qed.

Lemma parse_value_fuel (fuel : nat) (s : string) :
  String.length s < fuel -> parse_value fuel s <> Err OutOfFuel.
Proof.
  revert s. induction fuel as [| fuel IH]; intros s Hf; [lia |].
  cbn [parse_value]. pose proof (skip_ws_length s) as H0.
  destruct (skip_ws s) as [| c s']; [discriminate |].
  cbn [String.length] in H0.
  assert (Hlit : forall lit w,
             parse_literal lit w (String c s') <> Err OutOfFuel).
  { intros lit w. unfold parse_literal.
    destruct (strip_prefix lit (String c s')); discriminate. }
  destruct (Ascii.eqb c "n"); [apply Hlit |].
  destruct (Ascii.eqb c "t"); [apply Hlit |].
  destruct (Ascii.eqb c "f"); [apply Hlit |].
  destruct (Ascii.eqb c dquote).
  { pose proof (parse_chars_fuel s') as Hc.
    destruct (parse_chars s') as [[str r'] | e]; cbn; congruence. }
  destruct (Ascii.eqb c "[").
  { destruct (skip_ws s') as [| c' rest]; [discriminate |].
    destruct (Ascii.eqb c' "]"); [discriminate |].
    pose proof (parse_elements_fuel (parse_value fuel) fuel
                  (parse_value_length fuel) IH fuel s') as He.
    destruct (parse_elements (parse_value fuel) fuel s') as [[vs r'] | e];
      [discriminate |]. cbn. intros [= ->]. apply He; [lia | lia | reflexivity]. }
  destruct (Ascii.eqb c "{").
  { destruct (skip_ws s') as [| c' rest]; [discriminate |].
    destruct (Ascii.eqb c' "}"); [discriminate |].
    pose proof (parse_members_fuel (parse_value fuel) fuel
                  (parse_value_length fuel) IH fuel s') as He.
    destruct (parse_members (parse_value fuel) fuel s') as [[ms r'] | e];
      [discriminate |]. cbn. intros [= ->]. apply He; [lia | lia | reflexivity]. }
  destruct (_ || _); [apply parse_number_fuel | discriminate].
Qed.

(** JSON.parse has the fuel for every text. *)
Lemma JSON_parse_fuel (text : string) : JSON_parse text <> Err OutOfFuel.
Proof.
  unfold JSON_parse.
  pose proof (parse_value_fuel (S (String.length text)) text) as H.
  destruct (parse_value (S (String.length text)) text) as [[v rest] | e].
  - cbn. destruct (skip_ws rest); discriminate.
  - cbn. intros [= ->]. apply H; [lia | reflexivity].
Qed.

(* ================================================================== *)
(** * The properties at concrete transactions *)
(* ================================================================== *)

(** A closed transaction rejects get, and sends nothing. *)
Lemma C1_witness :
  closed (this (@example_state string 1 true)) = true /\
  @guarded JSONValue unit (call_get "k") = true /\
  run (@memory_respond _ JSON_parse unit bool string true) (perform JSON_stringify JSON_parse (call_get "k"))
    (example_state 1 true) empty_memory
  = mkRun (example_state 1 true) (Thrown TransactionClosedError)
      empty_memory [].
Proof.
  split; [reflexivity |]. split; [reflexivity |].
  apply (C1_closed_transaction_rejects JSONValue JSON_stringify JSON_parse unit bool string
           (example_state 1 true)); reflexivity.
Defined.

(** C3, as it is stated, fails: commit is called on a transaction whose
    closed flag is true, is not rejected, sends its request to the channel
    and returns the outcome of the engine. *)
Lemma C3_counterexample :
  closed (this (@example_state string 1 true)) = true /\
  run (@memory_respond _ JSON_parse unit bool string true)
    (@WriteTransactionImpl_commit JSONValue unit bool string)
    (example_state 1 true) empty_memory
  = mkRun (example_state 1 true) (Returned true) empty_memory
      [CommitTransaction 1].
Proof. split; reflexivity. Qed.

Lemma C3_witness :
  closed (this (@example_state string 1 true)) = true /\
  @perform _ JSON_stringify JSON_parse unit bool string (call_scanAll JSONValue unit None) (example_state 1 true)
  = Throw (example_state 1 true) TransactionClosedError.
Proof.
  split; [reflexivity |].
  apply (C3_closed_is_monotone JSONValue JSON_stringify JSON_parse unit bool string); reflexivity.
Defined.

(** C5, as it is stated, fails: get is called on a transaction that was
    never opened, whose id is still -1; it is not rejected, and its request
    reaches the channel with the id -1.  And a second open assigns the id
    again: 1 after the first open, 2 after the second. *)
Lemma C5_counterexample :
  id (this (@fresh_state string)) = (-1)%Z /\
  run (@memory_respond _ JSON_parse unit bool string true)
    (@get _ JSON_parse unit bool string "k") fresh_state empty_memory
  = mkRun fresh_state (Returned None) empty_memory [Get (-1) "k"] /\
  id (this (final (run (@memory_respond _ JSON_parse unit bool string true)
                     (@open JSONValue unit bool string tt)
                     fresh_state empty_memory))) = 1%Z /\
  id (this (final (run (@memory_respond _ JSON_parse unit bool string true)
                     (bind (@open JSONValue unit bool string tt) (fun _ => open tt))
                     fresh_state empty_memory))) = 2%Z.
Proof. repeat split. Qed.

Lemma C5_witness :
  is_open JSONValue unit (call_close JSONValue unit) = false /\
  Stretches JSONValue unit bool string (id_unchanged string) fresh_state
    (@perform _ JSON_stringify JSON_parse unit bool string (call_close JSONValue unit) fresh_state).
Proof.
  split; [reflexivity |].
  apply (C5_id_written_by_open_only JSONValue JSON_stringify JSON_parse unit bool string); reflexivity.
Defined.

Lemma C6_witness :
  closed (this (@example_state string 1 false)) = false /\
  requests (run (@memory_respond _ JSON_parse unit bool string true)
              (@get _ JSON_parse unit bool string "k")
              (example_state 1 false) empty_memory)
  = [Get 1 "k"].
Proof.
  split; [reflexivity |].
  apply (C6_get JSONValue JSON_parse unit bool string); reflexivity.
Defined.

Lemma C8_witness :
  closed (this (@example_state string 1 false)) = false /\
  requests (run (@memory_respond _ JSON_parse unit bool string true)
              (@isEmpty JSONValue unit bool string)
              (example_state 1 false) empty_memory)
  = [Scan 1 (mkScanOptions None None None None (Some 1%Z))].
Proof.
  split; [reflexivity |].
  apply (C8_isEmpty JSONValue unit bool string); reflexivity.
Defined.

Lemma C10_witness :
  closed (this (@example_state string 1 true)) = true /\
  entries (new_ScanResult JSONValue unit bool string None
             (invoke JSONValue unit bool string) (read_this JSONValue unit bool string) false)
    (example_state 1 true)
  = GThrow (example_state 1 true) TransactionClosedError.
Proof.
  split; [reflexivity |].
  apply (C10_scan_defers_closed_check JSONValue unit bool string); reflexivity.
Defined.


(** The examples of the specification, on the engine in memory: after one
    put the transaction is not empty, and scanAll returns the entries in
    the order of their keys. *)
Lemma isEmpty_after_put :
  outcome (run (@memory_respond _ JSON_parse unit bool string true)
             (bind (@put _ JSON_stringify unit bool string "k" (JNumber 1)) (fun _ => isEmpty))
             (example_state 1 false) empty_memory)
  = Returned false.
Proof. reflexivity. Qed.

Lemma scanAll_in_key_order :
  outcome (run (@memory_respond _ JSON_parse unit bool string true)
             (bind (@put _ JSON_stringify unit bool string "c" (JNumber 3)) (fun _ =>
              bind (put JSON_stringify "a" (JNumber 1)) (fun _ =>
              bind (put JSON_stringify "b" (JNumber 2)) (fun _ =>
              scanAll None))))
             (example_state 1 false) empty_memory)
  = Returned [(PrimaryKey "a", JNumber 1);
              (PrimaryKey "b", JNumber 2);
              (PrimaryKey "c", JNumber 3)].
Proof. reflexivity. Qed.

(** close() on an engine that fails: the call returns, the flag is true and
    the failure is on the console. *)
Lemma close_on_failing_engine :
  run (@failing_respond JSONValue unit bool string "engine down") close
    (example_state 1 false) tt
  = mkRun
      (mkState string (mkTransaction 1 true RPC_OpenTransaction)
         [("Failed to close transaction", ChannelFailure "engine down")])
      (Returned tt) tt [CloseTransaction 1].
Proof. reflexivity. Qed.

(** A text that is not JSON: get throws the failure of JSON.parse. *)
Lemma get_malformed_value :
  get_result JSONValue JSON_parse unit bool string (GetResponse.make true (Some "{1}"))
    (example_state 1 false)
  = Throw (example_state 1 false) (JSONParseError SyntaxError).
Proof. reflexivity. Qed.

(* ================================================================== *)
(** * The further properties at concrete transactions *)
(* ================================================================== *)

Lemma reads_and_writes_assign_nothing_witness :
  writes_nothing JSONValue unit (call_has JSONValue unit "k") = true /\
  Stretches JSONValue unit bool string eq (example_state 1 false)
    (@perform _ JSON_stringify JSON_parse unit bool string (call_has JSONValue unit "k") (example_state 1 false)).
Proof.
  split; [reflexivity |].
  apply (reads_and_writes_assign_nothing JSONValue JSON_stringify JSON_parse unit bool string); reflexivity.
Defined.

Lemma commit_writes_closed_only_witness :
  is_commit JSONValue unit (call_WriteTransactionImpl_commit JSONValue unit) = true /\
  Stretches JSONValue unit bool string (only_closed_written string)
    (example_state 1 false)
    (@perform _ JSON_stringify JSON_parse unit bool string (call_WriteTransactionImpl_commit JSONValue unit)
       (example_state 1 false)).
Proof.
  split; [reflexivity |].
  apply (commit_writes_closed_only JSONValue JSON_stringify JSON_parse unit bool string); reflexivity.
Defined.

(** The scan request of scanAll carries the id 7 of its transaction. *)
Lemma requests_carry_the_id_witness :
  is_open JSONValue unit (call_scanAll JSONValue unit None) = false /\
  AllRequests JSONValue unit bool string (carries_id unit string)
    (@perform _ JSON_stringify JSON_parse unit bool string
       (call_scanAll JSONValue unit None) (example_state 7 false)).
Proof.
  split; [reflexivity |].
  apply (requests_carry_the_id JSONValue JSON_stringify JSON_parse
           unit bool string); reflexivity.
Defined.

Lemma one_request_at_most_witness :
  iterates JSONValue unit (call_close JSONValue unit) = false /\
  List.length
    (requests (run (@failing_respond JSONValue unit bool string "engine down")
                 (perform JSON_stringify JSON_parse (call_close JSONValue unit)) (example_state 1 false) tt))
  <= 1.
Proof.
  split; [reflexivity |].
  apply (one_request_at_most JSONValue JSON_stringify JSON_parse unit bool string); reflexivity.
Defined.

Lemma channel_failure_is_thrown_witness :
  is_close JSONValue unit (call_put JSONValue unit "k" (JNumber 1)) = false /\
  first_request JSONValue JSON_stringify unit string (call_put JSONValue unit "k" (JNumber 1))
    (example_state 1 false)
  = Some (Put 1 "k" "1") /\
  @failing_respond JSONValue unit bool string "engine down" (Put 1 "k" "1") tt
  = (inl "engine down", tt) /\
  run (@failing_respond JSONValue unit bool string "engine down")
    (perform JSON_stringify JSON_parse (call_put JSONValue unit "k" (JNumber 1))) (example_state 1 false) tt
  = mkRun (example_state 1 false) (Thrown (ChannelFailure "engine down")) tt
      [Put 1 "k" "1"].
Proof.
  split; [reflexivity |]. split; [reflexivity |]. split; [reflexivity |].
  apply (channel_failure_is_thrown JSONValue JSON_stringify JSON_parse unit bool string unit
           (failing_respond "engine down")
           (call_put JSONValue unit "k" (JNumber 1)) (example_state 1 false) tt tt
           (Put 1 "k" "1") "engine down"); reflexivity.
Defined.

Lemma no_closed_error_after_the_request_witness :
  @guarded JSONValue unit (call_get "k") = true /\
  closed (this (@example_state string 1 false)) = false /\
  exists req k,
    @perform _ JSON_stringify JSON_parse unit bool string (call_get "k") (example_state 1 false)
    = Await (example_state 1 false) req k /\
    forall ans st',
      ThrowsOnly JSONValue unit bool string (not_closed_error string) (k ans st').
Proof.
  split; [reflexivity |]. split; [reflexivity |].
  apply (no_closed_error_after_the_request JSONValue JSON_stringify JSON_parse unit bool string); reflexivity.
Defined.

Lemma only_get_throws_parse_errors_witness :
  is_get JSONValue unit (call_has JSONValue unit "k") = false /\
  iterates JSONValue unit (call_has JSONValue unit "k") = false /\
  ThrowsOnly JSONValue unit bool string (not_parse_error string)
    (@perform _ JSON_stringify JSON_parse unit bool string (call_has JSONValue unit "k") (example_state 1 false)).
Proof.
  split; [reflexivity |]. split; [reflexivity |].
  apply (only_get_throws_parse_errors JSONValue JSON_stringify JSON_parse unit bool string); reflexivity.
Defined.

Lemma createIndex_sends_the_prefix_witness :
  closed (this (@example_state string 1 false)) = false /\
  first_request JSONValue JSON_stringify unit string
    (call_createIndex JSONValue unit (mkCreateIndexDefinition "byAge" None "/age"))
    (example_state 1 false)
  = Some (CreateIndex unit 1 "byAge" EmptyString "/age").
Proof.
  split; [reflexivity |].
  apply (createIndex_sends_the_prefix JSONValue JSON_stringify unit bool string
           (mkCreateIndexDefinition "byAge" None "/age")
           (example_state 1 false)); reflexivity.
Defined.

(** The number 1 and the string of the digit 1 are put as different
    texts. *)
Lemma put_requests_differ_witness :
  closed (this (@example_state string 1 false)) = false /\
  round_trips JSON_stringify JSON_parse (JNumber 1) /\
  round_trips JSON_stringify JSON_parse (JString "1") /\
  JNumber 1 <> JString "1" /\
  awaited (@put _ JSON_stringify unit bool string "k" (JNumber 1)
             (example_state 1 false))
  = Some (Put 1 "k" "1") /\
  awaited (@put _ JSON_stringify unit bool string "k" (JNumber 1)
             (example_state 1 false))
  <> awaited (@put _ JSON_stringify unit bool string "k" (JString "1")
                (example_state 1 false)).
Proof.
  split; [reflexivity |]. split; [reflexivity |]. split; [reflexivity |].
  split; [discriminate |].
  apply (put_requests_differ JSONValue JSON_stringify JSON_parse
           unit bool string (example_state 1 false) "k" "k"
           (JNumber 1) (JString "1"));
    [reflexivity | reflexivity | reflexivity | discriminate].
Defined.

Lemma operations_use_the_assigned_id_witness :
  @guarded JSONValue unit (call_get "k") = true /\
  closed (this (@fresh_state string)) = false /\
  _openTransactionName (this (@fresh_state string)) = RPC_OpenTransaction /\
  @memory_respond _ JSON_parse unit bool string true (OpenTransaction tt) empty_memory
  = (inr (OpenTransactionResponse.make 1), mkMemory 2 []) /\
  exists req,
    request_of JSONValue JSON_stringify unit (call_get "k") 1 = Some req /\
    requests (run (@memory_respond _ JSON_parse unit bool string true)
                (bind (open tt) (fun _ => perform JSON_stringify JSON_parse (call_get "k")))
                fresh_state empty_memory)
    = [OpenTransaction tt; req].
Proof.
  split; [reflexivity |]. split; [reflexivity |]. split; [reflexivity |].
  split; [reflexivity |].
  apply (proj1 (operations_use_the_assigned_id JSONValue JSON_stringify JSON_parse unit bool string Memory
                  (memory_respond JSON_parse true) (call_get "k") tt fresh_state
                  empty_memory (mkMemory 2 [])
                  (OpenTransactionResponse.make 1) eq_refl eq_refl));
    reflexivity.
Defined.

(** A read transaction and an index transaction with the id 1, both open:
    get returns the same value on both. *)
Lemma operations_depend_on_id_and_closed_only_witness :
  id (this (@example_state string 1 false))
    = id (mkTransaction 1 false RPC_OpenIndexTransaction) /\
  closed (this (@example_state string 1 false))
    = closed (mkTransaction 1 false RPC_OpenIndexTransaction) /\
  same_call
    (run (@memory_respond _ JSON_parse unit bool string true)
       (get JSON_parse "k") (example_state 1 false)
       (mkMemory 2 [("k", "7")]))
    (run (@memory_respond _ JSON_parse unit bool string true)
       (get JSON_parse "k")
       (mkState string (mkTransaction 1 false RPC_OpenIndexTransaction) [])
       (mkMemory 2 [("k", "7")])) /\
  outcome
    (run (@memory_respond _ JSON_parse unit bool string true)
       (get JSON_parse "k")
       (mkState string (mkTransaction 1 false RPC_OpenIndexTransaction) [])
       (mkMemory 2 [("k", "7")]))
  = Returned (Some (JNumber 7)).
Proof.
  split; [reflexivity |]. split; [reflexivity |].
  split; [| reflexivity].
  apply (operations_depend_on_id_and_closed_only JSONValue JSON_stringify
           JSON_parse unit bool string Memory
           (memory_respond JSON_parse true) (example_state 1 false)
           (mkState string (mkTransaction 1 false RPC_OpenIndexTransaction)
              [])
           (mkMemory 2 [("k", "7")]) eq_refl eq_refl).
Defined.
